(** * RootPanel: the root container panel of the graph library

    A shallow embedding of [src/js/src/component/rootpanel.js].

    The panel object, the surface element it creates, and the part of
    the browser it talks to (interval timers, the window's resize
    handlers, the listener arrays living on the JavaScript heap) are
    gathered in one record, [World].  Every method of the prototype is a
    function on worlds; [repaint] and [on], which can throw, also
    return an [outcome].

    Conventions of the embedding:
    - option values have the types the constructor's documentation
      gives them (lines 4-13): a size is a string, a number or a
      function producing one, and so on.  A producing function is a
      thunk; numbers are integers;
    - the objects [listeners] and [emitters] are used as maps from
      event names to values.  Both are plain objects, so a lookup by a
      name that is no key of theirs still finds the properties every
      object inherits ([object_prototype]); [on] meets them at line 196;
    - the style of the surface belongs to the host: what a property
      reads back after an assignment is the host's serialisation of the
      value, and a string the host cannot parse is not stored.  The
      host is a parameter of the development ([Host]);
    - a listener is an opaque function, known by its identity; a call
      of it returns, and is recorded in [calls];
    - timer handles are positive, as the handles [setInterval] gives
      out are, so that [if (this.watchTimer)] tests presence. *)

From Stdlib Require Import ZArith Ascii String DecimalString.
From stdpp Require Import gmap strings list.

(** ** Values *)

Definition element := nat.      (* handle of a host element *)
Definition callback := nat.     (* identity of a listener function *)
Definition raw_event := nat.    (* identity of a raw HTML event *)
Definition timer := positive.   (* handle given out by setInterval *)

Inductive outcome (A : Type) : Type :=
| Return (a : A)
| Throw (message : string).
Arguments Return {A} a.
Arguments Throw {A} message.

Inductive size_value :=
| SizeString (s : string)
| SizeNumber (n : Z).

Inductive size_option :=
| Size (v : size_value)
| SizeProducer (f : unit -> size_value).

Inductive class_option :=
| Class (s : string)
| ClassProducer (f : unit -> string).

Inductive bool_option :=
| Flag (b : bool)
| FlagProducer (f : unit -> bool).

(** The options object.  A field is [None] when the key is absent; the
    same record serves for [this.options] and for the argument of
    [setOptions]. *)
Module Options.
Record t := mk {
  container : option element;
  id : option string;
  className : option class_option;
  left : option size_option;
  top : option size_option;
  width : option size_option;
  height : option size_option;
  autoResize : option bool_option
}.

Definition empty : t := mk None None None None None None None None.

Definition or_else {A} (new old : option A) : option A :=
  match new with
  | Some v => Some v
  | None => old
  end.

(** Modelled from the spec: [util.extend], through which the shared
    option handling of the Component base stores a configuration:
    every key present in [new] replaces the stored one. *)
Definition extend (old new : t) : t :=
  mk (or_else (container new) (container old))
     (or_else (id new) (id old))
     (or_else (className new) (className old))
     (or_else (left new) (left old))
     (or_else (top new) (top old))
     (or_else (width new) (width old))
     (or_else (height new) (height old))
     (or_else (autoResize new) (autoResize old)).
End Options.

(** ** The option helpers of [util.option] *)

(** Modelled from the spec: [util.option.asBoolean], which reads an
    option that is a boolean or a producing function. *)
Definition asBoolean (v : option bool_option) : bool :=
  match v with
  | Some (Flag b) => b
  | Some (FlagProducer f) => f tt
  | None => false
  end.

(** Modelled from the spec: [util.option.asString], which reads an
    option that is a string or a string-producing function. *)
Definition asString (v : class_option) : string :=
  match v with
  | Class s => s
  | ClassProducer f => f tt
  end.

Definition size_string (v : size_value) : string :=
  match v with
  | SizeString s => s
  | SizeNumber n => NilZero.string_of_int (Z.to_int n) +:+ "px"
  end.

(** Modelled from the spec: [util.option.asSize], the style-string
    formatting helper: a string is taken as it is, a number is a size
    in pixels, a producing function is called first, and an absent
    option gives the default. *)
Definition asSize (v : option size_option) (defaultValue : string) : string :=
  match v with
  | Some (Size x) => size_string x
  | Some (SizeProducer f) => size_string (f tt)
  | None => defaultValue
  end.

(** JavaScript truthiness of the raw option values, as tested by
    [if (options.className)] and [if (!me.options.autoResize)]. *)
Definition truthy_class (v : option class_option) : bool :=
  match v with
  | Some (Class s) => negb (String.eqb s "")
  | Some (ClassProducer _) => true
  | None => false
  end.

Definition truthy_flag (v : option bool_option) : bool :=
  match v with
  | Some (Flag b) => b
  | Some (FlagProducer _) => true
  | None => false
  end.

(** ** The surface element *)

Inductive style_prop := StyleTop | StyleLeft | StyleWidth | StyleHeight.

Module Style.
Record t := mk { top : string; left : string; width : string; height : string }.

Definition get (p : style_prop) (s : t) : string :=
  match p with
  | StyleTop => top s
  | StyleLeft => left s
  | StyleWidth => width s
  | StyleHeight => height s
  end.

(** The text kept for a property; what an assignment keeps is decided
    by the host, see [assign]. *)
Definition set (p : style_prop) (v : string) (s : t) : t :=
  match p with
  | StyleTop => mk v (left s) (width s) (height s)
  | StyleLeft => mk (top s) v (width s) (height s)
  | StyleWidth => mk (top s) (left s) v (height s)
  | StyleHeight => mk (top s) (left s) (width s) v
  end.
End Style.

(** The style object of an element is the host's.  Assigning a string
    to one of its properties hands the string to the host's parser:
    [serialize p v] is [Some s] when [v] is a value of property [p],
    [s] being the text the property reads back from then on (a browser
    reads "0" back as "0px"), and [None] when [v] is no such value, in
    which case the assignment is ignored. *)
Class Host := { serialize : style_prop → string → option string }.

(** [style.p = v]. *)
Definition assign `{Host} (p : style_prop) (v : string) (s : Style.t)
    : Style.t :=
  match serialize p v with
  | Some text => Style.set p text s
  | None => s
  end.

(** The dispatch function built by [_updateEventEmitters] is a closure
    over the listener array of its event: [Dispatch a] is the closure
    that captured the array at address [a] of the heap. *)
Inductive emitter := Dispatch (a : nat).

Record Frame := mkFrame {
  className : string;
  parentNode : option element;
  style : Style.t;
  offsetTop : Z;
  offsetLeft : Z;
  offsetWidth : Z;
  offsetHeight : Z;
  clientWidth : Z;
  clientHeight : Z;
  handlers : list (string * emitter)   (* what addEventListener attached *)
}.

Definition set_className (v : string) (f : Frame) : Frame :=
  mkFrame v (parentNode f) (style f) (offsetTop f) (offsetLeft f)
          (offsetWidth f) (offsetHeight f) (clientWidth f) (clientHeight f)
          (handlers f).

Definition set_parentNode (v : option element) (f : Frame) : Frame :=
  mkFrame (className f) v (style f) (offsetTop f) (offsetLeft f)
          (offsetWidth f) (offsetHeight f) (clientWidth f) (clientHeight f)
          (handlers f).

Definition set_style (v : Style.t) (f : Frame) : Frame :=
  mkFrame (className f) (parentNode f) v (offsetTop f) (offsetLeft f)
          (offsetWidth f) (offsetHeight f) (clientWidth f) (clientHeight f)
          (handlers f).

Definition set_handlers (v : list (string * emitter)) (f : Frame) : Frame :=
  mkFrame (className f) (parentNode f) (style f) (offsetTop f) (offsetLeft f)
          (offsetWidth f) (offsetHeight f) (clientWidth f) (clientHeight f) v.

(** The rendered geometry of an element is the host's to decide. *)
Record Box := mkBox {
  box_top : Z; box_left : Z; box_width : Z; box_height : Z;
  box_clientWidth : Z; box_clientHeight : Z
}.

Definition set_box (b : Box) (f : Frame) : Frame :=
  mkFrame (className f) (parentNode f) (style f) (box_top b) (box_left b)
          (box_width b) (box_height b) (box_clientWidth b)
          (box_clientHeight b) (handlers f).

(** [document.createElement('div')]: a detached, unstyled element. *)
Definition createElement : Frame :=
  mkFrame "" None (Style.mk "" "" "" "") 0 0 0 0 0 0 [].

Fixpoint split_spaces (cur s : string) : list string :=
  match s with
  | EmptyString => [cur]
  | String c r =>
      if Ascii.eqb c " "%char then cur :: split_spaces "" r
      else split_spaces (cur +:+ String c "") r
  end.

(** Modelled from the spec: [util.addClassName], the class-name helper:
    the name joins the space-separated class list of the element unless
    it is there already. *)
Definition addClassName (f : Frame) (name : string) : Frame :=
  if bool_decide (name ∈ split_spaces "" (className f)) then f
  else set_className (className f +:+ " " +:+ name) f.

(** ** The panel and its host *)

Record World := mkWorld {
  (* the panel object *)
  id : string;
  options : Options.t;
  listeners : list (string * nat);       (* event name -> listener array *)
  emitters : option (gmap string emitter);
  frame : option Frame;
  top : option Z;
  left : option Z;
  width : option Z;
  height : option Z;
  watchTimer : option timer;
  (* the host *)
  arrays : list (list callback);         (* heap of listener arrays *)
  intervals : list timer;                (* running interval timers *)
  next_timer : timer;
  resize_handlers : nat;                 (* checkSize closures on window *)
  reflow_requests : nat;                 (* calls of requestReflow *)
  calls : list (callback * raw_event);   (* listener invocations *)
  style_writes : list (style_prop * string)  (* assignments to frame.style *)
}.

Definition set_options v w :=
  mkWorld (id w) v (listeners w) (emitters w) (frame w) (top w) (left w)
    (width w) (height w) (watchTimer w) (arrays w) (intervals w)
    (next_timer w) (resize_handlers w) (reflow_requests w) (calls w)
    (style_writes w).
Definition set_listeners v w :=
  mkWorld (id w) (options w) v (emitters w) (frame w) (top w) (left w)
    (width w) (height w) (watchTimer w) (arrays w) (intervals w)
    (next_timer w) (resize_handlers w) (reflow_requests w) (calls w)
    (style_writes w).
Definition set_emitters v w :=
  mkWorld (id w) (options w) (listeners w) v (frame w) (top w) (left w)
    (width w) (height w) (watchTimer w) (arrays w) (intervals w)
    (next_timer w) (resize_handlers w) (reflow_requests w) (calls w)
    (style_writes w).
Definition set_frame v w :=
  mkWorld (id w) (options w) (listeners w) (emitters w) v (top w) (left w)
    (width w) (height w) (watchTimer w) (arrays w) (intervals w)
    (next_timer w) (resize_handlers w) (reflow_requests w) (calls w)
    (style_writes w).
Definition set_top v w :=
  mkWorld (id w) (options w) (listeners w) (emitters w) (frame w) v (left w)
    (width w) (height w) (watchTimer w) (arrays w) (intervals w)
    (next_timer w) (resize_handlers w) (reflow_requests w) (calls w)
    (style_writes w).
Definition set_left v w :=
  mkWorld (id w) (options w) (listeners w) (emitters w) (frame w) (top w) v
    (width w) (height w) (watchTimer w) (arrays w) (intervals w)
    (next_timer w) (resize_handlers w) (reflow_requests w) (calls w)
    (style_writes w).
Definition set_width v w :=
  mkWorld (id w) (options w) (listeners w) (emitters w) (frame w) (top w)
    (left w) v (height w) (watchTimer w) (arrays w) (intervals w)
    (next_timer w) (resize_handlers w) (reflow_requests w) (calls w)
    (style_writes w).
Definition set_height v w :=
  mkWorld (id w) (options w) (listeners w) (emitters w) (frame w) (top w)
    (left w) (width w) v (watchTimer w) (arrays w) (intervals w)
    (next_timer w) (resize_handlers w) (reflow_requests w) (calls w)
    (style_writes w).
Definition set_watchTimer v w :=
  mkWorld (id w) (options w) (listeners w) (emitters w) (frame w) (top w)
    (left w) (width w) (height w) v (arrays w) (intervals w)
    (next_timer w) (resize_handlers w) (reflow_requests w) (calls w)
    (style_writes w).
Definition set_arrays v w :=
  mkWorld (id w) (options w) (listeners w) (emitters w) (frame w) (top w)
    (left w) (width w) (height w) (watchTimer w) v (intervals w)
    (next_timer w) (resize_handlers w) (reflow_requests w) (calls w)
    (style_writes w).
Definition set_intervals v w :=
  mkWorld (id w) (options w) (listeners w) (emitters w) (frame w) (top w)
    (left w) (width w) (height w) (watchTimer w) (arrays w) v
    (next_timer w) (resize_handlers w) (reflow_requests w) (calls w)
    (style_writes w).
Definition set_next_timer v w :=
  mkWorld (id w) (options w) (listeners w) (emitters w) (frame w) (top w)
    (left w) (width w) (height w) (watchTimer w) (arrays w) (intervals w)
    v (resize_handlers w) (reflow_requests w) (calls w) (style_writes w).
Definition set_resize_handlers v w :=
  mkWorld (id w) (options w) (listeners w) (emitters w) (frame w) (top w)
    (left w) (width w) (height w) (watchTimer w) (arrays w) (intervals w)
    (next_timer w) v (reflow_requests w) (calls w) (style_writes w).
Definition set_reflow_requests v w :=
  mkWorld (id w) (options w) (listeners w) (emitters w) (frame w) (top w)
    (left w) (width w) (height w) (watchTimer w) (arrays w) (intervals w)
    (next_timer w) (resize_handlers w) v (calls w) (style_writes w).
Definition set_calls v w :=
  mkWorld (id w) (options w) (listeners w) (emitters w) (frame w) (top w)
    (left w) (width w) (height w) (watchTimer w) (arrays w) (intervals w)
    (next_timer w) (resize_handlers w) (reflow_requests w) v
    (style_writes w).
Definition set_style_writes v w :=
  mkWorld (id w) (options w) (listeners w) (emitters w) (frame w) (top w)
    (left w) (width w) (height w) (watchTimer w) (arrays w) (intervals w)
    (next_timer w) (resize_handlers w) (reflow_requests w) (calls w) v.

(** ** Event dispatch attachments (lines 194-237) *)

(** The properties every object inherits from [Object.prototype]: a
    lookup [object[name]] by one of these names finds the inherited
    value, a function or an object, unless the object has a key of that
    name itself. *)
Definition object_prototype : list string :=
  ["constructor"; "toString"; "toLocaleString"; "valueOf";
   "hasOwnProperty"; "isPrototypeOf"; "propertyIsEnumerable";
   "__proto__"; "__defineGetter__"; "__defineSetter__";
   "__lookupGetter__"; "__lookupSetter__"].

Definition inherited (name : string) : bool :=
  bool_decide (name ∈ object_prototype).

(** The error of calling what is no function; its message is the
    engine's. *)
Definition type_error : string := "TypeError".

(** [this.listeners[event]]: the object keeps its keys in insertion
    order, which is the order [util.forEach] visits them in. *)
Fixpoint assoc {A} (k : string) (l : list (string * A)) : option A :=
  match l with
  | [] => None
  | (k', v) :: r => if decide (k = k') then Some v else assoc k r
  end.

(** Modelled from the spec: [util.forEach], which calls a function on
    every value of an object together with its key. *)
Definition forEach {A S : Type} (object : list (string * A))
    (callback : S → string * A → S) (s : S) : S :=
  fold_left callback object s.

(** Modelled from the spec: [util.addEventListener] on an element: the
    listener joins the handlers of the element under the event name. *)
Definition addEventListener (f : Frame) (action : string)
    (listener : emitter) : Frame :=
  set_handlers (handlers f ++ [(action, listener)]) f.

(** The function handed to [util.forEach] at line 213, called with a
    listener array and its event name.  The names it is called with are
    keys of [listeners], and [on] never makes an inherited name a key,
    so [event in me.emitters] is a lookup among the keys of [emitters]. *)
Definition update_emitter (w : World) (entry : string * nat) : World :=
  let '(event, arr) := entry in
  let w := match emitters w with
           | Some _ => w
           | None => set_emitters (Some ∅) w
           end in
  let m := default ∅ (emitters w) in
  match m !! event with
  | Some _ => w
  | None =>
      match frame w with
      | Some f =>
          let callback := Dispatch arr in
          let w := set_emitters (Some (<[event := callback]> m)) w in
          set_frame (Some (addEventListener f event callback)) w
      | None => w
      end
  end.

Definition _updateEventEmitters (w : World) : World :=
  forEach (listeners w) update_emitter w.

(** [this.listeners[event]] at line 196 finds the array kept under the
    key [event]; or, for a name that is no key, what the object inherits
    under that name, which is truthy and has no [push], so that line 201
    throws with nothing registered; or nothing, and then a new array is
    made. *)
Definition on (event : string) (cb : callback) (w : World)
    : World * outcome unit :=
  let found :=
    match assoc event (listeners w) with
    | Some arr => Some (arr, w)
    | None =>
        if inherited event then None
        else
          let arr := length (arrays w) in
          Some (arr, set_listeners (listeners w ++ [(event, arr)])
                       (set_arrays (arrays w ++ [[]]) w))
    end in
  match found with
  | Some (arr, w) =>
      let w := set_arrays (alter (λ l, l ++ [cb]) arr (arrays w)) w in
      (_updateEventEmitters w, Return tt)
  | None => (w, Throw type_error)
  end.

(** ** Sample inputs *)

(** A configuration without the auto-resize key: a container, a class
    name, a top of 10 pixels and a produced height. *)
Definition sample_options : Options.t :=
  Options.mk (Some 7) None (Some (Class "wide")) None
             (Some (Size (SizeNumber 10))) None
             (Some (SizeProducer (λ _, SizeString "50%"))) None.

Definition autoResize_only (b : bool) : Options.t :=
  Options.mk None None None None None None None (Some (Flag b)).

Definition sample_box : Box := mkBox 0 0 640 480 640 480.

Definition is_digit (c : ascii) : bool :=
  (48 <=? nat_of_ascii c) && (nat_of_ascii c <=? 57).

(** Digits followed by the unit [px] or [%]. *)
Fixpoint is_size (seen : bool) (s : string) : bool :=
  match s with
  | String c r =>
      if is_digit c then is_size true r
      else seen && (String.eqb s "px" || String.eqb s "%")
  | EmptyString => false
  end.

(** A host for the examples.  It serialises as browsers do on the
    values the examples use: a zero without unit reads back as "0px",
    whole pixel sizes and percentages read back as written, the empty
    string clears the property, and anything else is no value. *)
Definition sample_host : Host :=
  {| serialize p v :=
       if String.eqb v "" then Some ""
       else if String.eqb v "0" then Some "0px"
       else if is_size false v then Some v
       else None |}.

(** A configuration whose position is given with its unit. *)
Definition unit_options : Options.t :=
  Options.mk (Some 7) None None (Some (Size (SizeString "0px")))
             (Some (Size (SizeNumber 10))) None None None.

(** A configuration whose sizes are none the host accepts. *)
Definition odd_options : Options.t :=
  Options.mk (Some 7) None None (Some (Size (SizeString "wide")))
             (Some (Size (SizeString "10 px"))) None None None.

(** ** Repaint (lines 48-102) *)

(** From here on the host is a parameter: what follows holds for every
    host. *)
Section host.
Context {host : Host}.

Definition no_container : string :=
  "Cannot repaint root panel: no container attached".

(** One of the four blocks "update top / left / width / height": the
    local [frame], the log of style assignments and [changed]. *)
Definition update_style (p : style_prop) (v : string)
    (st : Frame * list (style_prop * string) * bool)
    : Frame * list (style_prop * string) * bool :=
  let '(f, log, changed) := st in
  if decide (Style.get p (style f) = v) then (f, log, changed)
  else (set_style (assign p v (style f)) f, log ++ [(p, v)], true).

Definition repaint_styles (f : Frame) (changed : bool) (w : World)
    : World * outcome bool :=
  let o := options w in
  let st := (f, style_writes w, changed) in
  let st := update_style StyleTop (asSize (Options.top o) "0") st in
  let st := update_style StyleLeft (asSize (Options.left o) "0") st in
  let st := update_style StyleWidth (asSize (Options.width o) "100%") st in
  let st := update_style StyleHeight (asSize (Options.height o) "100%") st in
  let '(f, log, changed) := st in
  let w := set_style_writes log (set_frame (Some f) w) in
  (_updateEventEmitters w, Return changed).

(** The element made at lines 53-58. *)
Definition new_surface (o : Options.t) : Frame :=
  let f := set_className "graph panel" createElement in
  match Options.className o with
  | Some c => if truthy_class (Some c) then addClassName f (asString c) else f
  | None => f
  end.

Definition repaint (w : World) : World * outcome bool :=
  let o := options w in
  let '(f, changed, w) :=
    match frame w with
    | Some f => (f, false, w)
    | None => let f := new_surface o in (f, true, set_frame (Some f) w)
    end in
  match parentNode f with
  | Some _ => repaint_styles f changed w
  | None =>
      match Options.container o with
      | None => (w, Throw no_container)
      | Some c => repaint_styles (set_parentNode (Some c) f) true w
      end
  end.

(** ** Reflow (lines 108-141) *)

(** [v != cached], where the cached field may still be undefined. *)
Definition differs (v : Z) (cached : option Z) : bool :=
  match cached with
  | Some c => negb (Z.eqb v c)
  | None => true
  end.

Definition reflow (w : World) : World * bool :=
  match frame w with
  | Some f =>
      let r := (w, false) in
      let r := if differs (offsetTop f) (top r.1)
               then (set_top (Some (offsetTop f)) r.1, true) else r in
      let r := if differs (offsetLeft f) (left r.1)
               then (set_left (Some (offsetLeft f)) r.1, true) else r in
      let r := if differs (offsetWidth f) (width r.1)
               then (set_width (Some (offsetWidth f)) r.1, true) else r in
      let r := if differs (offsetHeight f) (height r.1)
               then (set_height (Some (offsetHeight f)) r.1, true) else r in
      r
  | None => (w, true)
  end.

(** ** The resize watch (lines 148-186) *)

(** [clearInterval(h)]: the timer [h] no longer runs. *)
Definition clearInterval (h : timer) (w : World) : World :=
  set_intervals (filter (λ x, x ≠ h) (intervals w)) w.

Definition _unwatch (w : World) : World :=
  match watchTimer w with
  | Some h => set_watchTimer None (clearInterval h w)
  | None => w
  end.

(** Modelled from the spec: [requestReflow] of the Component base,
    which hands the request to a scheduling hook outside this file; the
    request is counted. *)
Definition requestReflow (w : World) : World :=
  set_reflow_requests (S (reflow_requests w)) w.

(** The closure [checkSize] of [_watch]; every such closure captures
    the same panel, so they all behave alike. *)
Definition checkSize (w : World) : World :=
  if negb (truthy_flag (Options.autoResize (options w))) then _unwatch w
  else
    match frame w with
    | Some f =>
        if differs (clientWidth f) (width w)
           || differs (clientHeight f) (height w)
        then requestReflow w
        else w
    | None => w
    end.

(** Modelled from the spec: [util.addEventListener] on the window, for
    the resize signal and a [checkSize] closure. *)
Definition addResizeListener (w : World) : World :=
  set_resize_handlers (S (resize_handlers w)) w.

(** [setInterval(checkSize, 1000)]: a fresh handle, now running. *)
Definition setInterval (w : World) : timer * World :=
  let h := next_timer w in
  (h, set_next_timer (Pos.succ h) (set_intervals (intervals w ++ [h]) w)).

Definition _watch (w : World) : World :=
  let w := _unwatch w in
  let w := addResizeListener w in
  let '(h, w) := setInterval w in
  set_watchTimer (Some h) w.

(** ** Configuration (lines 17-42) *)

Definition setOptions (o : Options.t) (w : World) : World :=
  let w := match Options.autoResize o with
           | Some v => if asBoolean (Some v) then _watch w else _unwatch w
           | None => w
           end in
  set_options (Options.extend (options w) o) w.

(** The constructor; [uuid] is what [util.randomUUID()] returned.  The
    fields the constructor does not assign start undefined. *)
Definition RootPanel (uuid : string) (o : Options.t) : World :=
  let this :=
    mkWorld uuid
      (Options.mk None None None None None None None (Some (Flag true)))
      [] None None None None None None None
      [] [] 1%positive 0 0 [] [] in
  setOptions o this.

(** ** What the host does *)

Definition invoke (cb : callback) (ev : raw_event) (w : World) : World :=
  set_calls (calls w ++ [(cb, ev)]) w.

(** Calling a dispatch function with a raw event (lines 222-227): the
    array it captured is read when the call is made. *)
Definition call_emitter (em : emitter) (ev : raw_event) (w : World) : World :=
  let 'Dispatch a := em in
  fold_left (λ w cb, invoke cb ev w) (default [] (arrays w !! a)) w.

(** A raw event named [name] reaches the surface: the handlers attached
    under that name run in the order of their attachment. *)
Definition dispatchEvent (name : string) (ev : raw_event) (w : World) : World :=
  match frame w with
  | Some f =>
      fold_left
        (λ w (h : string * emitter),
           if decide (h.1 = name) then call_emitter h.2 ev w else w)
        (handlers f) w
  | None => w
  end.

(** The interval timer [h] fires, if it is still running. *)
Definition tick (h : timer) (w : World) : World :=
  if bool_decide (h ∈ intervals w) then checkSize w else w.

(** The window is resized: every handler attached to it runs. *)
Definition resize (w : World) : World :=
  Nat.iter (resize_handlers w) checkSize w.

(** The host lays the surface out anew. *)
Definition layout (b : Box) (w : World) : World :=
  match frame w with
  | Some f => set_frame (Some (set_box b f)) w
  | None => w
  end.

(** The life of a panel: calls of its methods, interleaved with what
    the host does.  A [repaint] or an [on] that throws leaves the panel
    as it was when the error was raised. *)
Inductive action :=
| CallSetOptions (o : Options.t)
| CallRepaint
| CallReflow
| CallOn (event : string) (cb : callback)
| HostTick (h : timer)
| HostResize
| HostLayout (b : Box)
| HostEvent (name : string) (ev : raw_event).

Definition step (a : action) (w : World) : World :=
  match a with
  | CallSetOptions o => setOptions o w
  | CallRepaint => (repaint w).1
  | CallReflow => (reflow w).1
  | CallOn event cb => (on event cb w).1
  | HostTick h => tick h w
  | HostResize => resize w
  | HostLayout b => layout b w
  | HostEvent name ev => dispatchEvent name ev w
  end.

Definition run (l : list action) (w : World) : World :=
  fold_left (λ w a, step a w) l w.

Inductive reachable : World → Prop :=
| reachable_new uuid o : reachable (RootPanel uuid o)
| reachable_step a w : reachable w → reachable (step a w).

(** The container the surface is appended to, if any. *)
Definition surface_parent (w : World) : option element :=
  frame w ≫= parentNode.

(** The listeners registered for an event, in registration order. *)
Definition registered (event : string) (w : World) : list callback :=
  match assoc event (listeners w) with
  | Some a => default [] (arrays w !! a)
  | None => []
  end.

(** The dispatch functions attached to the surface for an event. *)
Definition attached (event : string) (w : World) : list emitter :=
  match frame w with
  | Some f => (filter (λ h : string * emitter, h.1 = event) (handlers f)).*2
  | None => []
  end.

(** ** Specification vocabulary *)

(** The dispatch functions created so far, by event name. *)
Definition emitter_map (w : World) : gmap string emitter :=
  default ∅ (emitters w).

Definition surface_handlers (w : World) : list (string * emitter) :=
  match frame w with
  | Some f => handlers f
  | None => []
  end.

(** The world with the dispatch attachments forgotten: two worlds with
    the same erasure differ at most in [emitters] and in the handlers
    on the surface. *)
Definition erase (w : World) : World :=
  set_frame (set_handlers [] <$> frame w) (set_emitters None w).

(** The world with the resize watch forgotten: the timers, the
    handlers on the window and the count of reflow requests. *)
Definition erase_watch (w : World) : World :=
  set_watchTimer None
    (set_intervals []
       (set_next_timer 1%positive
          (set_resize_handlers 0 (set_reflow_requests 0 w)))).

(** The world with the surface and everything [repaint] writes
    forgotten. *)
Definition erase_surface (w : World) : World :=
  set_frame None (set_emitters None (set_style_writes [] w)).

(** The calls a dispatch function makes when it is handed a raw event. *)
Definition emitted (w : World) (ev : raw_event) (em : emitter)
    : list (callback * raw_event) :=
  let 'Dispatch a := em in (λ cb, (cb, ev)) <$> default [] (arrays w !! a).

(** What two worlds with the same erasure have in common. *)
Record same_panel (w w' : World) : Prop := {
  same_id : id w' = id w;
  same_options : options w' = options w;
  same_listeners : listeners w' = listeners w;
  same_top : top w' = top w;
  same_left : left w' = left w;
  same_width : width w' = width w;
  same_height : height w' = height w;
  same_watchTimer : watchTimer w' = watchTimer w;
  same_arrays : arrays w' = arrays w;
  same_intervals : intervals w' = intervals w;
  same_next_timer : next_timer w' = next_timer w;
  same_resize_handlers : resize_handlers w' = resize_handlers w;
  same_reflow_requests : reflow_requests w' = reflow_requests w;
  same_calls : calls w' = calls w;
  same_style_writes : style_writes w' = style_writes w;
  same_parent : surface_parent w' = surface_parent w;
  same_style : style <$> frame w' = style <$> frame w;
  same_surface : is_Some (frame w') ↔ is_Some (frame w)
}.

(** What two worlds that differ in the watch only have in common. *)
Record same_but_watch (w w' : World) : Prop := {
  sw_id : id w' = id w;
  sw_options : options w' = options w;
  sw_listeners : listeners w' = listeners w;
  sw_emitters : emitters w' = emitters w;
  sw_frame : frame w' = frame w;
  sw_top : top w' = top w;
  sw_left : left w' = left w;
  sw_width : width w' = width w;
  sw_height : height w' = height w;
  sw_arrays : arrays w' = arrays w;
  sw_calls : calls w' = calls w;
  sw_style_writes : style_writes w' = style_writes w
}.

(** What two worlds that differ in the surface only have in common. *)
Record same_but_surface (w w' : World) : Prop := {
  ss_id : id w' = id w;
  ss_options : options w' = options w;
  ss_listeners : listeners w' = listeners w;
  ss_top : top w' = top w;
  ss_left : left w' = left w;
  ss_width : width w' = width w;
  ss_height : height w' = height w;
  ss_watchTimer : watchTimer w' = watchTimer w;
  ss_arrays : arrays w' = arrays w;
  ss_intervals : intervals w' = intervals w;
  ss_next_timer : next_timer w' = next_timer w;
  ss_resize_handlers : resize_handlers w' = resize_handlers w;
  ss_reflow_requests : reflow_requests w' = reflow_requests w;
  ss_calls : calls w' = calls w
}.

(** The callbacks passed to [on] for an event along a list of actions,
    in the order of the calls. *)
Definition registrations (event : string) (l : list action) : list callback :=
  l ≫= λ a, match a with
            | CallOn event' cb => if decide (event' = event) then [cb] else []
            | _ => []
            end.

(** An action that leaves the auto-resize option alone. *)
Definition keeps_autoResize (a : action) : Prop :=
  match a with
  | CallSetOptions o => Options.autoResize o = None
  | _ => True
  end.

(** The style assignments [repaint] owes a surface whose style is [s]. *)
Definition due_writes (o : Options.t) (s : Style.t) : list (style_prop * string) :=
  filter (λ pv : style_prop * string, Style.get pv.1 s ≠ pv.2)
    [(StyleTop, asSize (Options.top o) "0");
     (StyleLeft, asSize (Options.left o) "0");
     (StyleWidth, asSize (Options.width o) "100%");
     (StyleHeight, asSize (Options.height o) "100%")].

(** The style the configuration asks for. *)
Definition configured_style (o : Options.t) : Style.t :=
  Style.mk (asSize (Options.top o) "0") (asSize (Options.left o) "0")
           (asSize (Options.width o) "100%") (asSize (Options.height o) "100%").

(** The text a style property holds after its block of [repaint],
    where [cur] is the text it held before and [v] the configured
    string: the block assigns [v] unless the two are the same string. *)
Definition restyled (p : style_prop) (v cur : string) : string :=
  if decide (cur = v) then cur else default cur (serialize p v).

(** The style [repaint] leaves on a surface whose style was [s]. *)
Definition repainted_style (o : Options.t) (s : Style.t) : Style.t :=
  Style.mk
    (restyled StyleTop (asSize (Options.top o) "0") (Style.top s))
    (restyled StyleLeft (asSize (Options.left o) "0") (Style.left s))
    (restyled StyleWidth (asSize (Options.width o) "100%") (Style.width s))
    (restyled StyleHeight (asSize (Options.height o) "100%") (Style.height s)).

(** The host reads the configured strings back as they were written. *)
Definition verbatim (o : Options.t) : Prop :=
  Forall (λ pv : style_prop * string, serialize pv.1 pv.2 = Some pv.2)
    [(StyleTop, asSize (Options.top o) "0");
     (StyleLeft, asSize (Options.left o) "0");
     (StyleWidth, asSize (Options.width o) "100%");
     (StyleHeight, asSize (Options.height o) "100%")].

(** The surface [repaint] works on: the panel's, or a new one. *)
Definition surface_or_new (w : World) : Frame :=
  default (new_surface (options w)) (frame w).

(** The surface sits in a container and carries the configured style. *)
Definition settled (w : World) : Prop :=
  is_Some (surface_parent w)
  ∧ style <$> frame w = Some (configured_style (options w)).

(** *** Invariants of reachable worlds *)

(** Every event has a listener array of its own on the heap, holding
    at least one listener. *)
Definition heap_ok (L : list (string * nat)) (A : list (list callback)) : Prop :=
  NoDup L.*1
  ∧ (∀ e a, (e, a) ∈ L → ∃ c l, A !! a = Some (c :: l))
  ∧ (∀ e e' a, (e, a) ∈ L → (e', a) ∈ L → e = e').

(** A dispatch function exists for an event exactly when it is attached
    to the surface, once, and it is the closure over that event's own
    listener array. *)
Definition emitters_ok (L : list (string * nat)) (m : gmap string emitter)
    (hs : list (string * emitter)) : Prop :=
  (∀ e em, m !! e = Some em → ∃ a, em = Dispatch a ∧ (e, a) ∈ L)
  ∧ NoDup hs.*1
  ∧ (∀ e em, (e, em) ∈ hs ↔ m !! e = Some em).

(** Once the surface sits in its container no event waits for its
    dispatch function, and [emitters] exists as soon as an event does. *)
Definition synced (L : list (string * nat)) (m : option (gmap string emitter))
    (parent : option element) : Prop :=
  (is_Some parent → ∀ e a, (e, a) ∈ L → is_Some (default ∅ m !! e))
  ∧ (L ≠ [] → is_Some m).

(** No key of [listeners] is a name every object inherits. *)
Definition names_ok (L : list (string * nat)) : Prop :=
  ∀ e a, (e, a) ∈ L → inherited e = false.

(** The option that configures a style property, and the string
    [repaint] takes when the option is absent (lines 72-93). *)
Definition configured (p : style_prop) (o : Options.t) : option size_option :=
  match p with
  | StyleTop => Options.top o
  | StyleLeft => Options.left o
  | StyleWidth => Options.width o
  | StyleHeight => Options.height o
  end.

Definition fallback (p : style_prop) : string :=
  match p with
  | StyleTop | StyleLeft => "0"
  | StyleWidth | StyleHeight => "100%"
  end.

(** While property [p] is not configured, its text on the surface is
    never the default string that [repaint] compares it with. *)
Definition never_bare (p : style_prop) (w : World) : Prop :=
  configured p (options w) = None →
  ∀ f, frame w = Some f → Style.get p (style f) ≠ fallback p.

(** The only running interval timer is the one the panel holds. *)
Definition timer_ok (running : list timer) (held : option timer) : Prop :=
  running = option_list held.

Record invariant (w : World) : Prop := {
  inv_heap : heap_ok (listeners w) (arrays w);
  inv_emitters : emitters_ok (listeners w) (emitter_map w) (surface_handlers w);
  inv_synced : synced (listeners w) (emitters w) (surface_parent w);
  inv_timer : timer_ok (intervals w) (watchTimer w)
}.

(** *** Vocabulary for the watch *)

(** An action that switches the watch on: a [setOptions] whose
    configuration carries an auto-resize option that reads true. *)
Definition starts_watch (a : action) : bool :=
  match a with
  | CallSetOptions o =>
      match Options.autoResize o with
      | Some v => asBoolean (Some v)
      | None => false
      end
  | _ => false
  end.

(** The surface exists and its client size is not the cached size: the
    test of lines 160-163. *)
Definition size_mismatch (w : World) : bool :=
  match frame w with
  | Some f =>
      differs (clientWidth f) (width w) || differs (clientHeight f) (height w)
  | None => false
  end.

(** The handle the panel holds was given out before [next_timer]. *)
Definition timer_fresh (w : World) : Prop :=
  ∀ h, watchTimer w = Some h → (h < next_timer w)%positive.

(** * Properties *)

(** ** Tactics *)

(** Open [update_emitter w _] on whether [emitters] exists yet. *)
Ltac open_update w m Hm :=
  unfold update_emitter, emitter_map;
  destruct (emitters w) as [m|] eqn:Hm; simpl; rewrite ?Hm; simpl;
  rewrite ?lookup_empty.

(** Open [reflow w] on a surface [f], one comparison after the other. *)
Ltac open_reflow w f Hf :=
  unfold reflow; rewrite Hf; simpl;
  destruct (differs (offsetTop f) (top w)) eqn:?; simpl;
  destruct (differs (offsetLeft f) (left w)) eqn:?; simpl;
  destruct (differs (offsetWidth f) (width w)) eqn:?; simpl;
  destruct (differs (offsetHeight f) (height w)) eqn:?; simpl.

(** ** Association lists *)

Section assoc_facts.
Context {A : Type}.
Implicit Types (l : list (string * A)) (k : string) (v : A).

Lemma assoc_Some_elem l k v : assoc k l = Some v → (k, v) ∈ l.
Proof.
  induction l as [|[k' v'] l IH]; simpl; [done|].
  destruct (decide (k = k')) as [->|].
  - intros [= ->]. apply list_elem_of_here.
  - intros H. apply list_elem_of_further. auto.
Qed.

Lemma assoc_None l k : assoc k l = None ↔ k ∉ l.*1.
Proof.
  induction l as [|[k' v'] l IH]; simpl.
  - split; [intros _; apply not_elem_of_nil | done].
  - rewrite not_elem_of_cons. destruct (decide (k = k')) as [->|].
    + split; [done|]. by intros [? _].
    + rewrite IH. tauto.
Qed.

Lemma elem_assoc l k v : NoDup l.*1 → (k, v) ∈ l → assoc k l = Some v.
Proof.
  induction l as [|[k' v'] l IH]; simpl; intros Hnd Hin.
  - by apply elem_of_nil in Hin.
  - apply NoDup_cons in Hnd as [Hk Hnd].
    apply elem_of_cons in Hin as [[= -> ->]|Hin].
    + by rewrite decide_True.
    + destruct (decide (k = k')) as [->|]; [|auto].
      exfalso. apply Hk. apply list_elem_of_fmap. by exists (k', v).
Qed.

Lemma assoc_snoc l k k' v :
  assoc k (l ++ [(k', v)])
  = match assoc k l with
    | Some x => Some x
    | None => if decide (k = k') then Some v else None
    end.
Proof.
  induction l as [|[k'' v''] l IH]; simpl; [done|].
  by destruct (decide (k = k'')).
Qed.
End assoc_facts.

(** ** Synchronising the dispatch attachments *)

Lemma erase_update w x : erase (update_emitter w x) = erase w.
Proof.
  destruct x as [e a]. open_update w m Hm.
  - destruct (m !! e); [done|].
    destruct (frame w) as [f|] eqn:Hf; [|done].
    unfold erase; simpl. by rewrite Hf.
  - destruct (frame w) as [f|] eqn:Hf; [|done].
    unfold erase; simpl. by rewrite Hf.
Qed.

Lemma erase_fold l w : erase (fold_left update_emitter l w) = erase w.
Proof.
  revert w. induction l as [|x l IH]; intros w; cbn [fold_left]; [done|].
  by rewrite IH, erase_update.
Qed.

Lemma erase_same w w' : erase w' = erase w → same_panel w w'.
Proof.
  intros H.
  assert (Hf : set_handlers [] <$> frame w' = set_handlers [] <$> frame w)
    by exact (f_equal frame H).
  split;
    [ exact (f_equal id H) | exact (f_equal options H)
    | exact (f_equal listeners H) | exact (f_equal top H)
    | exact (f_equal left H) | exact (f_equal width H)
    | exact (f_equal height H) | exact (f_equal watchTimer H)
    | exact (f_equal arrays H) | exact (f_equal intervals H)
    | exact (f_equal next_timer H) | exact (f_equal resize_handlers H)
    | exact (f_equal reflow_requests H) | exact (f_equal calls H)
    | exact (f_equal style_writes H) | | | ];
    unfold surface_parent;
    destruct (frame w') as [f'|], (frame w) as [f|]; simpl in *; try done.
  - injection Hf. congruence.
  - injection Hf. congruence.
Qed.

Lemma update_emitter_fixed w e a m :
  emitters w = Some m → is_Some (m !! e) → update_emitter w (e, a) = w.
Proof.
  intros Hm [em Hem]. unfold update_emitter. rewrite Hm. simpl.
  by rewrite Hm; simpl; rewrite Hem.
Qed.

Lemma fold_update_fixed l w :
  is_Some (emitters w) ∨ l = [] →
  (∀ e a, (e, a) ∈ l → is_Some (emitter_map w !! e)) →
  fold_left update_emitter l w = w.
Proof.
  induction l as [|[e a] l IH]; cbn [fold_left]; [done|].
  intros [[m Hm]|?] Hall; [|done].
  rewrite (update_emitter_fixed w e a m Hm).
  - apply IH; [left; eauto|]. intros e' a' Hin.
    apply (Hall e' a'). by apply list_elem_of_further.
  - specialize (Hall e a (list_elem_of_here _ _)).
    unfold emitter_map in Hall. by rewrite Hm in Hall.
Qed.

Lemma update_emitter_some w x : is_Some (emitters (update_emitter w x)).
Proof.
  destruct x as [e a]. open_update w m Hm.
  - destruct (m !! e); [by rewrite Hm|].
    by destruct (frame w); simpl; [|rewrite Hm].
  - by destruct (frame w).
Qed.

Lemma update_emitter_mono w x e em :
  emitter_map w !! e = Some em →
  emitter_map (update_emitter w x) !! e = Some em.
Proof.
  destruct x as [e' a]. open_update w m Hm; [|done].
  intros Hem. destruct (m !! e') eqn:He'; [by rewrite Hm|].
  destruct (frame w); simpl; [|by rewrite Hm].
  rewrite lookup_insert_ne; [done|]. congruence.
Qed.

Lemma update_emitter_covers w e a :
  is_Some (frame w) → is_Some (emitter_map (update_emitter w (e, a)) !! e).
Proof.
  intros [f Hf]. open_update w m Hm.
  - destruct (m !! e) eqn:He; [by rewrite Hm; simpl; rewrite He|].
    rewrite Hf. simpl. by rewrite lookup_insert_eq.
  - rewrite Hf. simpl. by rewrite lookup_insert_eq.
Qed.

Lemma fold_update_some l w :
  l ≠ [] → is_Some (emitters (fold_left update_emitter l w)).
Proof.
  destruct l as [|x l]; [done|]. intros _. cbn [fold_left].
  generalize (update_emitter_some w x). generalize (update_emitter w x).
  induction l as [|y l IH]; intros w' Hw'; cbn [fold_left]; [done|].
  apply IH, update_emitter_some.
Qed.

Lemma fold_update_mono l w e em :
  emitter_map w !! e = Some em →
  emitter_map (fold_left update_emitter l w) !! e = Some em.
Proof.
  revert w. induction l as [|x l IH]; intros w H; cbn [fold_left]; [done|].
  by apply IH, update_emitter_mono.
Qed.

Lemma fold_update_covers l w e a :
  is_Some (frame w) → (e, a) ∈ l →
  is_Some (emitter_map (fold_left update_emitter l w) !! e).
Proof.
  revert w. induction l as [|x l IH]; intros w Hf Hin; cbn [fold_left].
  - by apply elem_of_nil in Hin.
  - apply elem_of_cons in Hin as [<-|Hin].
    + destruct (update_emitter_covers w e a Hf) as [em Hem].
      exists em. by apply fold_update_mono.
    + apply IH; [|done].
      apply (same_surface _ _ (erase_same _ _ (erase_update w x))), Hf.
Qed.
Lemma emitters_ok_insert L m hs e a :
  (e, a) ∈ L → m !! e = None → emitters_ok L m hs →
  emitters_ok L (<[e := Dispatch a]> m) (hs ++ [(e, Dispatch a)]).
Proof.
  intros Hin Hnone (Halias & Hnd & Hiff). split_and!.
  - intros e' em. rewrite lookup_insert. case_decide as He.
    + intros [= <-]. subst e'. eauto.
    + apply Halias.
  - rewrite fmap_app. apply NoDup_app. split_and!; [done| |apply NoDup_singleton].
    intros e' Hin' Hin''. apply list_elem_of_singleton in Hin''. simpl in Hin''. subst e'.
    apply list_elem_of_fmap in Hin' as [[e' em] [-> Hin']].
    apply Hiff in Hin'. simpl in Hnone. congruence.
  - intros e' em. rewrite elem_of_app, list_elem_of_singleton, lookup_insert, Hiff.
    case_decide as He.
    + subst e'. split; [intros [?|[= ->]]; congruence | intros [= <-]; by right].
    + split; [intros [?|[= -> ->]]; done | by left].
Qed.

Lemma update_emitter_ok L w e a :
  (e, a) ∈ L →
  emitters_ok L (emitter_map w) (surface_handlers w) →
  emitters_ok L (emitter_map (update_emitter w (e, a)))
                (surface_handlers (update_emitter w (e, a))).
Proof.
  intros Hin. unfold surface_handlers. open_update w m Hm.
  - destruct (m !! e) eqn:He; [by rewrite Hm|].
    destruct (frame w) as [f|] eqn:Hf; simpl; [|by rewrite Hm, Hf].
    by apply emitters_ok_insert.
  - destruct (frame w) as [f|] eqn:Hf; simpl; [|by rewrite Hf].
    by apply emitters_ok_insert.
Qed.

Lemma fold_update_ok L l w :
  (∀ x, x ∈ l → x ∈ L) →
  emitters_ok L (emitter_map w) (surface_handlers w) →
  emitters_ok L (emitter_map (fold_left update_emitter l w))
                (surface_handlers (fold_left update_emitter l w)).
Proof.
  revert w. induction l as [|[e a] l IH]; intros w Hsub Hok; cbn [fold_left]; [done|].
  apply IH.
  - intros x Hx. by apply Hsub, list_elem_of_further.
  - apply update_emitter_ok; [|done]. apply Hsub, list_elem_of_here.
Qed.

Lemma sync_same w : same_panel w (_updateEventEmitters w).
Proof. apply erase_same, erase_fold. Qed.

Lemma sync_invariant w :
  heap_ok (listeners w) (arrays w) →
  emitters_ok (listeners w) (emitter_map w) (surface_handlers w) →
  timer_ok (intervals w) (watchTimer w) →
  invariant (_updateEventEmitters w).
Proof.
  intros Hheap Hok Htimer. pose proof (sync_same w) as Hs.
  split.
  - by rewrite (same_listeners _ _ Hs), (same_arrays _ _ Hs).
  - rewrite (same_listeners _ _ Hs). by apply fold_update_ok.
  - rewrite (same_listeners _ _ Hs), (same_parent _ _ Hs). split.
    + intros [c Hc] e a Hin. apply (fold_update_covers _ _ e a); [|done].
      unfold surface_parent in Hc. by destruct (frame w).
    + apply fold_update_some.
  - by rewrite (same_intervals _ _ Hs), (same_watchTimer _ _ Hs).
Qed.
(** ** Repaint *)

Lemma update_style_eq p v f log changed :
  update_style p v (f, log, changed)
  = (set_style
       (Style.set p (restyled p v (Style.get p (style f))) (style f)) f,
     log ++ (if decide (Style.get p (style f) = v) then [] else [(p, v)]),
     changed || (if decide (Style.get p (style f) = v) then false else true)).
Proof.
  unfold update_style, restyled, assign. destruct (decide _) as [Heq|Hne].
  - rewrite app_nil_r, orb_false_r. by destruct f as [? ? [] ], p.
  - rewrite orb_true_r. destruct (serialize p v); simpl; [done|].
    by destruct f as [? ? [] ], p.
Qed.

Lemma due_writes_eq o s :
  due_writes o s
  = (if decide (Style.top s = asSize (Options.top o) "0") then []
     else [(StyleTop, asSize (Options.top o) "0")])
    ++ (if decide (Style.left s = asSize (Options.left o) "0") then []
        else [(StyleLeft, asSize (Options.left o) "0")])
    ++ (if decide (Style.width s = asSize (Options.width o) "100%") then []
        else [(StyleWidth, asSize (Options.width o) "100%")])
    ++ (if decide (Style.height s = asSize (Options.height o) "100%") then []
        else [(StyleHeight, asSize (Options.height o) "100%")]).
Proof.
  unfold due_writes. rewrite !filter_cons, filter_nil. simpl.
  repeat (destruct (decide (_ = _))); simpl;
    repeat first [rewrite decide_True by done | rewrite decide_False by tauto ];
    reflexivity.
Qed.

Lemma bool_decide_nonempty {A} (l : list A) :
  bool_decide (l ≠ []) = match l with [] => false | _ => true end.
Proof. destruct l; [by rewrite bool_decide_false by tauto | by rewrite bool_decide_true]. Qed.

Lemma repaint_styles_eq f changed w :
  repaint_styles f changed w
  = (_updateEventEmitters
       (set_style_writes (style_writes w ++ due_writes (options w) (style f))
          (set_frame
             (Some (set_style (repainted_style (options w) (style f)) f)) w)),
     Return (changed || bool_decide (due_writes (options w) (style f) ≠ []))).
Proof.
  unfold repaint_styles. rewrite !update_style_eq, bool_decide_nonempty, due_writes_eq.
  unfold repainted_style.
  destruct f as [? ? [t l wd h] ];
    cbn [style set_style Style.get Style.set Style.top Style.left Style.width
         Style.height].
  rewrite <- !app_assoc.
  repeat (destruct (decide (_ = _))); destruct changed; simpl; reflexivity.
Qed.

Lemma restyled_same p v : restyled p v v = v.
Proof. unfold restyled. by rewrite decide_True. Qed.

(** What a block of [repaint] has written it leaves alone the next
    time. *)
Lemma restyled_twice p v cur :
  restyled p v (restyled p v cur) = restyled p v cur.
Proof.
  unfold restyled. destruct (decide (cur = v)) as [Heq|Hne].
  - by rewrite decide_True.
  - destruct (serialize p v) as [text|]; simpl.
    + by destruct (decide (text = v)).
    + by rewrite decide_False.
Qed.

Lemma repainted_twice o s :
  repainted_style o (repainted_style o s) = repainted_style o s.
Proof. unfold repainted_style. simpl. by rewrite !restyled_twice. Qed.

Lemma repainted_configured o : repainted_style o (configured_style o) = configured_style o.
Proof. unfold repainted_style, configured_style. simpl. by rewrite !restyled_same. Qed.

Lemma restyled_verbatim p v cur :
  serialize p v = Some v → restyled p v cur = v.
Proof.
  intros Hv. unfold restyled. rewrite Hv. simpl. by destruct (decide (cur = v)).
Qed.

(** Where the host reads the configured strings back as written, the
    style [repaint] leaves is the configured one. *)
Lemma repainted_verbatim o s :
  verbatim o → repainted_style o s = configured_style o.
Proof.
  unfold verbatim. rewrite !Forall_cons. simpl. intros (Ht & Hl & Hw & Hh & _).
  unfold repainted_style, configured_style.
  by rewrite !restyled_verbatim.
Qed.

Lemma set_frame_same w f : frame w = Some f → set_frame (Some f) w = w.
Proof. destruct w; simpl. by intros ->. Qed.

Lemma new_surface_fresh o :
  parentNode (new_surface o) = None
  ∧ style (new_surface o) = Style.mk "" "" "" ""
  ∧ handlers (new_surface o) = [].
Proof.
  unfold new_surface, addClassName.
  destruct (Options.className o) as [c|]; [|done].
  destruct (truthy_class _); [|done]. by case_bool_decide.
Qed.

Lemma surface_or_new_parent w :
  parentNode (surface_or_new w) = surface_parent w.
Proof.
  unfold surface_or_new, surface_parent.
  destruct (frame w); [done|]. apply new_surface_fresh.
Qed.

Lemma surface_or_new_handlers w :
  handlers (surface_or_new w) = surface_handlers w.
Proof.
  unfold surface_or_new, surface_handlers.
  destruct (frame w); [done|]. apply new_surface_fresh.
Qed.

Lemma repaint_throw w :
  surface_parent w = None → Options.container (options w) = None →
  repaint w = (set_frame (Some (surface_or_new w)) w, Throw no_container).
Proof.
  intros Hp Hc. rewrite <- surface_or_new_parent in Hp. revert Hp.
  unfold repaint, surface_or_new.
  destruct (frame w) as [f|] eqn:Hf; simpl; intros ->; rewrite Hc;
    [by rewrite set_frame_same | done].
Qed.

Lemma repaint_attach w c :
  surface_parent w = None → Options.container (options w) = Some c →
  repaint w
  = repaint_styles (set_parentNode (Some c) (surface_or_new w)) true
      (set_frame (Some (surface_or_new w)) w).
Proof.
  intros Hp Hc. rewrite <- surface_or_new_parent in Hp. revert Hp.
  unfold repaint, surface_or_new.
  destruct (frame w) as [f|] eqn:Hf; simpl; intros ->; rewrite Hc;
    [by rewrite set_frame_same | done].
Qed.

Lemma repaint_attached w f c :
  frame w = Some f → parentNode f = Some c →
  repaint w = repaint_styles f false w.
Proof. intros Hf Hp. unfold repaint. by rewrite Hf, Hp. Qed.

(** ** The resize watch *)

Lemma unwatch_erase w : erase_watch (_unwatch w) = erase_watch w.
Proof. unfold _unwatch. by destruct (watchTimer w). Qed.

Lemma watch_erase w : erase_watch (_watch w) = erase_watch w.
Proof. unfold _watch. by rewrite <- (unwatch_erase w). Qed.

Lemma checkSize_erase w : erase_watch (checkSize w) = erase_watch w.
Proof.
  unfold checkSize. destruct (negb _); [apply unwatch_erase|].
  destruct (frame w); [|done]. by destruct (_ || _).
Qed.

Lemma tick_erase h w : erase_watch (tick h w) = erase_watch w.
Proof. unfold tick. case_bool_decide; [apply checkSize_erase | done]. Qed.

Lemma iter_checkSize_erase n w :
  erase_watch (Nat.iter n checkSize w) = erase_watch w.
Proof.
  induction n as [|n IH]; simpl; [done|]. by rewrite checkSize_erase.
Qed.

Lemma resize_erase w : erase_watch (resize w) = erase_watch w.
Proof. apply iter_checkSize_erase. Qed.

Lemma setOptions_erase o w :
  erase_watch (setOptions o w)
  = set_options (Options.extend (options w) o) (erase_watch w).
Proof.
  unfold setOptions. destruct (Options.autoResize o) as [v|]; [|done].
  destruct (asBoolean _).
  - assert (Ho : options (_watch w) = options w)
      by exact (f_equal options (watch_erase w)).
    rewrite Ho, <- (watch_erase w). reflexivity.
  - assert (Ho : options (_unwatch w) = options w)
      by exact (f_equal options (unwatch_erase w)).
    rewrite Ho, <- (unwatch_erase w). reflexivity.
Qed.

Lemma erase_watch_same w w' :
  erase_watch w' = erase_watch w → same_but_watch w w'.
Proof.
  intros H.
  split;
    [ exact (f_equal id H) | exact (f_equal options H)
    | exact (f_equal listeners H) | exact (f_equal emitters H)
    | exact (f_equal frame H) | exact (f_equal top H)
    | exact (f_equal left H) | exact (f_equal width H)
    | exact (f_equal height H) | exact (f_equal arrays H)
    | exact (f_equal calls H) | exact (f_equal style_writes H) ].
Qed.

Lemma unwatch_timer w :
  timer_ok (intervals w) (watchTimer w) →
  intervals (_unwatch w) = [] ∧ watchTimer (_unwatch w) = None.
Proof.
  unfold timer_ok, _unwatch.
  destruct (watchTimer w) as [h|] eqn:Hw; simpl; [|by rewrite Hw].
  intros ->. split; [|done].
  rewrite filter_cons, filter_nil. by rewrite decide_False by tauto.
Qed.

Lemma watch_timer w :
  timer_ok (intervals w) (watchTimer w) →
  intervals (_watch w) = [next_timer w]
  ∧ watchTimer (_watch w) = Some (next_timer w).
Proof.
  intros [Hi Hw]%unwatch_timer. unfold _watch. simpl. rewrite Hi.
  assert (Hn : next_timer (_unwatch w) = next_timer w)
    by (unfold _unwatch; by destruct (watchTimer w)).
  by rewrite Hn.
Qed.

Lemma checkSize_timer w :
  timer_ok (intervals w) (watchTimer w) →
  timer_ok (intervals (checkSize w)) (watchTimer (checkSize w)).
Proof.
  intros H. unfold checkSize. destruct (negb _).
  - destruct (unwatch_timer w H) as [-> ->]. done.
  - destruct (frame w); [|done]. by destruct (_ || _).
Qed.

Lemma iter_checkSize_timer n w :
  timer_ok (intervals w) (watchTimer w) →
  timer_ok (intervals (Nat.iter n checkSize w))
           (watchTimer (Nat.iter n checkSize w)).
Proof.
  intros H. induction n as [|n IH]; simpl; [done|]. by apply checkSize_timer.
Qed.

Lemma setOptions_timer o w :
  timer_ok (intervals w) (watchTimer w) →
  timer_ok (intervals (setOptions o w)) (watchTimer (setOptions o w)).
Proof.
  intros H. unfold setOptions.
  destruct (Options.autoResize o) as [v|]; [|done]. destruct (asBoolean _).
  - change (timer_ok (intervals (_watch w)) (watchTimer (_watch w))).
    by destruct (watch_timer w H) as [-> ->].
  - change (timer_ok (intervals (_unwatch w)) (watchTimer (_unwatch w))).
    by destruct (unwatch_timer w H) as [-> ->].
Qed.


(** ** Registering listeners *)

Lemma on_known event cb w a :
  assoc event (listeners w) = Some a →
  on event cb w
  = (_updateEventEmitters
       (set_arrays (alter (λ l, l ++ [cb]) a (arrays w)) w), Return tt).
Proof. intros H. unfold on. by rewrite H. Qed.

Lemma on_new event cb w :
  assoc event (listeners w) = None → inherited event = false →
  on event cb w
  = (_updateEventEmitters
       (set_arrays (arrays w ++ [[cb]])
          (set_listeners (listeners w ++ [(event, length (arrays w))]) w)),
     Return tt).
Proof.
  intros H Hi. unfold on. rewrite H, Hi. simpl.
  assert (Halt : ∀ A : list (list callback),
             alter (λ l, l ++ [cb]) (length A) (A ++ [[]]) = A ++ [[cb]]).
  { induction A as [|x A IH]; simpl; [done|]. by f_equal. }
  by rewrite Halt.
Qed.

Lemma on_inherited event cb w :
  assoc event (listeners w) = None → inherited event = true →
  on event cb w = (w, Throw type_error).
Proof. intros H Hi. unfold on. by rewrite H, Hi. Qed.

(** The three ways a call of [on] can go. *)
Lemma on_cases event cb w :
  (∃ a, assoc event (listeners w) = Some a
        ∧ on event cb w
          = (_updateEventEmitters
               (set_arrays (alter (λ l, l ++ [cb]) a (arrays w)) w),
             Return tt))
  ∨ (assoc event (listeners w) = None ∧ inherited event = false
     ∧ on event cb w
       = (_updateEventEmitters
            (set_arrays (arrays w ++ [[cb]])
               (set_listeners (listeners w ++ [(event, length (arrays w))]) w)),
          Return tt))
  ∨ (assoc event (listeners w) = None ∧ inherited event = true
     ∧ on event cb w = (w, Throw type_error)).
Proof.
  destruct (assoc event (listeners w)) as [a|] eqn:Ha.
  - left. exists a. split; [done|]. by apply on_known.
  - destruct (inherited event) eqn:Hi.
    + right; right. split_and!; [done..|]. by apply on_inherited.
    + right; left. split_and!; [done..|]. by apply on_new.
Qed.

(** [on] returns unless the name is an inherited one that is no key of
    [listeners]; when it throws, it is with the panel as it was. *)
Lemma on_returns event cb w :
  (on event cb w).2 = Return tt
  ↔ is_Some (assoc event (listeners w)) ∨ inherited event = false.
Proof.
  destruct (on_cases event cb w)
    as [(a & Ha & ->)|[(Ha & Hi & ->)|(Ha & Hi & ->)] ]; simpl.
  - split; [|done]. intros _. left. by rewrite Ha.
  - split; [|done]. intros _. by right.
  - rewrite Ha, Hi. split; [done|]. by intros [ [? ?]|?].
Qed.

Lemma on_throws event cb w message :
  (on event cb w).2 = Throw message →
  on event cb w = (w, Throw type_error) ∧ inherited event = true
  ∧ assoc event (listeners w) = None.
Proof.
  destruct (on_cases event cb w)
    as [(a & Ha & ->)|[(Ha & Hi & ->)|(Ha & Hi & ->)] ]; simpl; done.
Qed.

Lemma heap_ok_push L A a cb :
  heap_ok L A → heap_ok L (alter (λ l, l ++ [cb]) a A).
Proof.
  intros (Hnd & Hne & Hinj). split_and!; [done| |done].
  intros e a' Hin. destruct (Hne e a' Hin) as (c & l & Hl).
  destruct (decide (a = a')) as [->|Hneq].
  - exists c, (l ++ [cb]). by rewrite list_lookup_alter_eq, Hl.
  - exists c, l. by rewrite list_lookup_alter_ne.
Qed.

Lemma heap_ok_new L A event cb :
  event ∉ L.*1 → heap_ok L A →
  heap_ok (L ++ [(event, length A)]) (A ++ [[cb]]).
Proof.
  intros Hfresh (Hnd & Hne & Hinj).
  assert (Hlt : ∀ e a, (e, a) ∈ L → a < length A).
  { intros e a Hin. destruct (Hne e a Hin) as (c & l & Hl).
    by apply lookup_lt_Some in Hl. }
  split_and!.
  - rewrite fmap_app. apply NoDup_app. split_and!; [done| |apply NoDup_singleton].
    intros e He He'. apply list_elem_of_singleton in He'. by subst e.
  - intros e a [Hin|Hin%list_elem_of_singleton]%elem_of_app.
    + destruct (Hne e a Hin) as (c & l & Hl). exists c, l.
      by rewrite lookup_app_l by eauto.
    + injection Hin as -> ->. exists cb, [].
      by rewrite lookup_app_r, Nat.sub_diag.
  - intros e e' a [Hin|Hin%list_elem_of_singleton]%elem_of_app
      [Hin'|Hin'%list_elem_of_singleton]%elem_of_app.
    + eauto.
    + injection Hin' as -> ->. apply Hlt in Hin. lia.
    + injection Hin as -> ->. apply Hlt in Hin'. lia.
    + congruence.
Qed.

Lemma emitters_ok_weaken L L' m hs :
  (∀ x, x ∈ L → x ∈ L') → emitters_ok L m hs → emitters_ok L' m hs.
Proof.
  intros Hsub (Halias & Hnd & Hiff). split_and!; [|done..].
  intros e em Hem. destruct (Halias e em Hem) as (a & -> & Hin). eauto.
Qed.

Lemma invariant_on event cb w : invariant w → invariant (on event cb w).1.
Proof.
  intros Hinv. pose proof Hinv as [Hheap Hok _ Htimer].
  destruct (on_cases event cb w)
    as [(a & Ha & ->)|[(Ha & Hi & ->)|(Ha & Hi & ->)] ]; cbn [fst]; [| |done].
  - apply sync_invariant; simpl; [|done..].
    by apply heap_ok_push.
  - apply sync_invariant; simpl; [| |done].
    + apply heap_ok_new; [|done]. by apply assoc_None.
    + eapply emitters_ok_weaken; [|exact Hok].
      intros x Hx. apply elem_of_app. by left.
Qed.

(** ** The invariant holds in every reachable world *)

(** The part of a world the invariant looks at. *)
Lemma invariant_transfer w w' :
  listeners w' = listeners w → arrays w' = arrays w →
  emitters w' = emitters w → surface_handlers w' = surface_handlers w →
  surface_parent w' = surface_parent w →
  timer_ok (intervals w') (watchTimer w') →
  invariant w → invariant w'.
Proof.
  intros HL HA HE HH HP HT [Hheap Hok Hsync _]. unfold emitter_map in *.
  split; unfold emitter_map; by rewrite ?HL, ?HA, ?HE, ?HH, ?HP.
Qed.

Lemma invariant_watch_only w w' :
  erase_watch w' = erase_watch w →
  timer_ok (intervals w') (watchTimer w') →
  invariant w → invariant w'.
Proof.
  intros Hs%erase_watch_same. pose proof (sw_frame _ _ Hs) as Hf.
  destruct Hs.
  apply invariant_transfer; unfold surface_handlers, surface_parent;
    rewrite ?Hf; congruence.
Qed.

Lemma invariant_setOptions o w : invariant w → invariant (setOptions o w).
Proof.
  intros H.
  eapply (invariant_watch_only (set_options (Options.extend (options w) o) w)).
  - by rewrite setOptions_erase.
  - apply setOptions_timer, H.
  - apply (invariant_transfer w); try done. apply H.
Qed.

Lemma invariant_new uuid o : invariant (RootPanel uuid o).
Proof.
  unfold RootPanel. apply invariant_setOptions.
  split; unfold emitter_map, surface_handlers, surface_parent; simpl; try done.
  - split_and!; [apply NoDup_nil_2|intros ?? []%elem_of_nil|intros ??? []%elem_of_nil].
  - split_and!; [by intros ?? ?%lookup_empty_Some|apply NoDup_nil_2|].
    intros e em. split; [intros []%elem_of_nil | by intros ?%lookup_empty_Some].
Qed.

Lemma invariant_checkSize w : invariant w → invariant (checkSize w).
Proof.
  intros H. eapply invariant_watch_only; [apply checkSize_erase| |done].
  apply checkSize_timer, H.
Qed.

Lemma invariant_tick h w : invariant w → invariant (tick h w).
Proof. unfold tick. case_bool_decide; [apply invariant_checkSize|done]. Qed.

Lemma invariant_resize w : invariant w → invariant (resize w).
Proof.
  intros H. eapply invariant_watch_only; [apply resize_erase| |done].
  apply iter_checkSize_timer, H.
Qed.

Lemma invariant_reflow w : invariant w → invariant (reflow w).1.
Proof.
  intros H.
  apply (invariant_transfer w); [..|done];
    unfold reflow, surface_handlers, surface_parent;
    destruct (frame w) as [f|] eqn:Hf; simpl; try done;
    repeat (destruct (differs _ _); simpl); rewrite ?Hf; try done; apply H.
Qed.

Lemma invariant_layout b w : invariant w → invariant (layout b w).
Proof.
  intros H.
  apply (invariant_transfer w); [..|done];
    unfold layout, surface_handlers, surface_parent;
    destruct (frame w) as [f|] eqn:Hf; simpl; rewrite ?Hf; try done; apply H.
Qed.

(** Calling listeners only adds to the record of calls. *)
Lemma fold_invoke ev l w :
  fold_left (λ w cb, invoke cb ev w) l w
  = set_calls (calls w ++ ((λ cb, (cb, ev)) <$> l)) w.
Proof.
  revert w. induction l as [|cb l IH]; intros w; simpl.
  - rewrite app_nil_r. by destruct w.
  - rewrite IH. unfold invoke; simpl. by rewrite <- app_assoc.
Qed.

Lemma call_emitter_eq em ev w :
  call_emitter em ev w = set_calls (calls w ++ emitted w ev em) w.
Proof. destruct em as [a]. apply fold_invoke. Qed.

Lemma fold_call_emitter name ev hs w :
  fold_left
    (λ w (h : string * emitter),
       if decide (h.1 = name) then call_emitter h.2 ev w else w) hs w
  = set_calls
      (calls w ++ ((filter (λ h : string * emitter, h.1 = name) hs).*2
                     ≫= emitted w ev)) w.
Proof.
  revert w. induction hs as [|[n em] hs IH]; intros w; cbn [fold_left].
  - simpl. rewrite app_nil_r. by destruct w.
  - rewrite IH, filter_cons. simpl. destruct (decide (n = name)); [|done].
    rewrite call_emitter_eq. simpl. rewrite <- app_assoc. f_equal.
Qed.

Lemma dispatchEvent_eq name ev w :
  dispatchEvent name ev w
  = set_calls (calls w ++ (attached name w ≫= emitted w ev)) w.
Proof.
  unfold dispatchEvent, attached. destruct (frame w) as [f|].
  - apply fold_call_emitter.
  - simpl. rewrite app_nil_r. by destruct w.
Qed.

Lemma invariant_dispatchEvent name ev w :
  invariant w → invariant (dispatchEvent name ev w).
Proof.
  intros H. rewrite dispatchEvent_eq.
  apply (invariant_transfer w); try done. apply H.
Qed.

Lemma invariant_repaint w : invariant w → invariant (repaint w).1.
Proof.
  intros H. pose proof H as [Hheap Hok Hsync Htimer].
  destruct (surface_parent w) as [c|] eqn:Hp.
  - unfold surface_parent in Hp.
    destruct (frame w) as [f|] eqn:Hf; [simpl in Hp|done].
    rewrite (repaint_attached w f c Hf Hp), repaint_styles_eq.
    apply sync_invariant; unfold emitter_map, surface_handlers; simpl; try done.
    revert Hok. unfold emitter_map, surface_handlers. by rewrite Hf.
  - destruct (Options.container (options w)) as [c|] eqn:Hc.
    + rewrite (repaint_attach w c Hp Hc), repaint_styles_eq.
      apply sync_invariant; unfold emitter_map, surface_handlers; simpl; try done.
      by rewrite surface_or_new_handlers.
    + rewrite (repaint_throw w Hp Hc).
      apply (invariant_transfer w); unfold surface_handlers, surface_parent;
        simpl; try done.
      * by rewrite surface_or_new_handlers.
      * by rewrite surface_or_new_parent.
Qed.

Lemma invariant_step a w : invariant w → invariant (step a w).
Proof.
  destruct a; simpl.
  - apply invariant_setOptions.
  - apply invariant_repaint.
  - apply invariant_reflow.
  - apply invariant_on.
  - apply invariant_tick.
  - apply invariant_resize.
  - apply invariant_layout.
  - apply invariant_dispatchEvent.
Qed.

Lemma reachable_invariant w : reachable w → invariant w.
Proof.
  induction 1 as [uuid o|a w _ IH]; [apply invariant_new|by apply invariant_step].
Qed.

(** ** What each action leaves alone *)

Lemma erase_surface_same w w' :
  erase_surface w' = erase_surface w → same_but_surface w w'.
Proof.
  intros H.
  split;
    [ exact (f_equal id H) | exact (f_equal options H)
    | exact (f_equal listeners H) | exact (f_equal top H)
    | exact (f_equal left H) | exact (f_equal width H)
    | exact (f_equal height H) | exact (f_equal watchTimer H)
    | exact (f_equal arrays H) | exact (f_equal intervals H)
    | exact (f_equal next_timer H) | exact (f_equal resize_handlers H)
    | exact (f_equal reflow_requests H) | exact (f_equal calls H) ].
Qed.

Lemma sync_erase_surface w :
  erase_surface (_updateEventEmitters w) = erase_surface w.
Proof. exact (f_equal erase_surface (erase_fold (listeners w) w)). Qed.

Lemma repaint_erase_surface w :
  erase_surface (repaint w).1 = erase_surface w.
Proof.
  destruct (surface_parent w) as [c|] eqn:Hp.
  - unfold surface_parent in Hp.
    destruct (frame w) as [f|] eqn:Hf; [simpl in Hp|done].
    rewrite (repaint_attached w f c Hf Hp), repaint_styles_eq. simpl.
    by rewrite sync_erase_surface.
  - destruct (Options.container (options w)) as [c|] eqn:Hc.
    + rewrite (repaint_attach w c Hp Hc), repaint_styles_eq. simpl.
      by rewrite sync_erase_surface.
    + by rewrite (repaint_throw w Hp Hc).
Qed.

Lemma repaint_same w : same_but_surface w (repaint w).1.
Proof. apply erase_surface_same, repaint_erase_surface. Qed.

Lemma reflow_fields w :
  let w' := (reflow w).1 in
  options w' = options w ∧ listeners w' = listeners w
  ∧ arrays w' = arrays w ∧ emitters w' = emitters w ∧ frame w' = frame w
  ∧ intervals w' = intervals w ∧ watchTimer w' = watchTimer w
  ∧ reflow_requests w' = reflow_requests w ∧ calls w' = calls w
  ∧ style_writes w' = style_writes w.
Proof.
  unfold reflow. destruct (frame w) as [f|] eqn:Hf; simpl; [|by rewrite Hf].
  repeat (destruct (differs _ _); simpl); by rewrite Hf.
Qed.

Lemma setOptions_same o w :
  same_but_watch (set_options (Options.extend (options w) o) w)
                 (setOptions o w).
Proof. apply erase_watch_same. by rewrite setOptions_erase. Qed.

(** ** Listeners and dispatch functions only accumulate *)

Lemma registered_on_same event cb w :
  invariant w → (on event cb w).2 = Return tt →
  registered event (on event cb w).1 = registered event w ++ [cb].
Proof.
  intros [(Hnd & Hne & Hinj) _ _ _]. unfold registered at 1.
  destruct (on_cases event cb w)
    as [(a & Ha & ->)|[(Ha & Hi & ->)|(Ha & Hi & ->)] ]; cbn [fst snd];
    intros Hret; [| |done].
  - rewrite (same_listeners _ _ (sync_same _)), (same_arrays _ _ (sync_same _)).
    simpl. unfold registered. rewrite Ha, list_lookup_alter_eq.
    destruct (Hne event a (assoc_Some_elem _ _ _ Ha)) as (c & l & ->). done.
  - rewrite (same_listeners _ _ (sync_same _)), (same_arrays _ _ (sync_same _)).
    simpl. unfold registered. rewrite Ha, assoc_snoc, Ha, decide_True by done.
    by rewrite lookup_app_r, Nat.sub_diag.
Qed.

Lemma registered_on_other event event' cb w :
  invariant w → event' ≠ event →
  registered event (on event' cb w).1 = registered event w.
Proof.
  intros [(Hnd & Hne & Hinj) _ _ _] Hneq. unfold registered.
  destruct (on_cases event' cb w)
    as [(a' & Ha' & ->)|[(Ha' & Hi & ->)|(Ha' & Hi & ->)] ]; cbn [fst];
    [| |done].
  - rewrite (same_listeners _ _ (sync_same _)), (same_arrays _ _ (sync_same _)).
    simpl. destruct (assoc event (listeners w)) as [a|] eqn:Ha; [|done].
    rewrite list_lookup_alter_ne; [done|]. intros ->.
    apply Hneq. eapply Hinj; by apply assoc_Some_elem.
  - rewrite (same_listeners _ _ (sync_same _)), (same_arrays _ _ (sync_same _)).
    simpl. rewrite assoc_snoc.
    destruct (assoc event (listeners w)) as [a|] eqn:Ha.
    + destruct (Hne event a (assoc_Some_elem _ _ _ Ha)) as (c & l & Hl).
      rewrite lookup_app_l; [done|]. by apply lookup_lt_Some in Hl.
    + by rewrite decide_False by done.
Qed.

(** A call of [on] never takes a listener away. *)
Lemma registered_on_grows event event' cb w :
  invariant w →
  registered event w `prefix_of` registered event (on event' cb w).1.
Proof.
  intros Hinv. destruct (decide (event' = event)) as [->|Hne].
  - destruct (on_cases event cb w)
      as [(a & Ha & Hon)|[(Ha & Hi & Hon)|(Ha & Hi & Hon)] ].
    + rewrite registered_on_same by (done || by rewrite Hon).
      by apply prefix_app_r.
    + rewrite registered_on_same by (done || by rewrite Hon).
      by apply prefix_app_r.
    + by rewrite Hon.
  - by rewrite registered_on_other.
Qed.

Lemma registered_step event a w :
  invariant w → inherited event = false →
  registered event (step a w) = registered event w ++ registrations event [a].
Proof.
  intros H Hi. unfold registrations. simpl. rewrite app_nil_r.
  destruct a as [o| | |event' cb|h| |b|name ev]; simpl; rewrite ?app_nil_r.
  - pose proof (setOptions_same o w) as Hs.
    unfold registered. by rewrite (sw_listeners _ _ Hs), (sw_arrays _ _ Hs).
  - pose proof (repaint_same w) as Hs.
    unfold registered. by rewrite (ss_listeners _ _ Hs), (ss_arrays _ _ Hs).
  - destruct (reflow_fields w) as (_ & HL & HA & _). unfold registered. by rewrite HL, HA.
  - destruct (decide (event' = event)) as [->|].
    + apply registered_on_same; [done|]. apply on_returns. by right.
    + rewrite app_nil_r. by apply registered_on_other.
  - pose proof (erase_watch_same _ _ (tick_erase h w)) as Hs.
    unfold registered. by rewrite (sw_listeners _ _ Hs), (sw_arrays _ _ Hs).
  - pose proof (erase_watch_same _ _ (resize_erase w)) as Hs.
    unfold registered. by rewrite (sw_listeners _ _ Hs), (sw_arrays _ _ Hs).
  - unfold layout. by destruct (frame w).
  - by rewrite dispatchEvent_eq.
Qed.

Lemma emitter_step event em a w :
  emitter_map w !! event = Some em →
  emitter_map (step a w) !! event = Some em.
Proof.
  intros Hem.
  destruct a as [o| | |event' cb|h| |b|name ev]; simpl.
  - unfold emitter_map in *.
    by rewrite (sw_emitters _ _ (setOptions_same o w)).
  - destruct (surface_parent w) as [c|] eqn:Hp.
    + unfold surface_parent in Hp.
      destruct (frame w) as [f|] eqn:Hf; [simpl in Hp|done].
      rewrite (repaint_attached w f c Hf Hp), repaint_styles_eq. simpl.
      by apply fold_update_mono.
    + destruct (Options.container (options w)) as [c|] eqn:Hc.
      * rewrite (repaint_attach w c Hp Hc), repaint_styles_eq. simpl.
        by apply fold_update_mono.
      * by rewrite (repaint_throw w Hp Hc).
  - destruct (reflow_fields w) as (_ & _ & _ & HE & _). unfold emitter_map in *.
    by rewrite HE.
  - destruct (on_cases event' cb w)
      as [(a & Ha & ->)|[(Ha & Hi & ->)|(Ha & Hi & ->)] ]; cbn [fst];
      [by apply fold_update_mono..|done].
  - unfold emitter_map in *.
    by rewrite (sw_emitters _ _ (erase_watch_same _ _ (tick_erase h w))).
  - unfold emitter_map in *.
    by rewrite (sw_emitters _ _ (erase_watch_same _ _ (resize_erase w))).
  - unfold layout. by destruct (frame w).
  - by rewrite dispatchEvent_eq.
Qed.

Lemma run_snoc l a w : run (l ++ [a]) w = step a (run l w).
Proof. unfold run. by rewrite fold_left_app. Qed.

Lemma run_cons a l w : run (a :: l) w = run l (step a w).
Proof. done. Qed.

Lemma invariant_run l w : invariant w → invariant (run l w).
Proof.
  revert w. induction l as [|a l IH]; intros w H; [done|].
  rewrite run_cons. by apply IH, invariant_step.
Qed.

Lemma reachable_run l w : reachable w → reachable (run l w).
Proof.
  revert w. induction l as [|a l IH]; intros w H; [done|].
  rewrite run_cons. by apply IH, reachable_step.
Qed.

Lemma reachable_trace w :
  reachable w ↔ ∃ uuid o l, w = run l (RootPanel uuid o).
Proof.
  split.
  - induction 1 as [uuid o|a w _ (uuid & o & l & ->)].
    + by exists uuid, o, [].
    + exists uuid, o, (l ++ [a]). by rewrite run_snoc.
  - intros (uuid & o & l & ->). apply reachable_run, reachable_new.
Qed.

Lemma registrations_cons event a l :
  registrations event (a :: l)
  = registrations event [a] ++ registrations event l.
Proof. unfold registrations. simpl. by rewrite app_nil_r. Qed.

Lemma registered_run event l w :
  invariant w → inherited event = false →
  registered event (run l w) = registered event w ++ registrations event l.
Proof.
  revert w. induction l as [|a l IH]; intros w H Hi.
  - by rewrite app_nil_r.
  - rewrite run_cons. rewrite IH by (done || by apply invariant_step).
    rewrite registered_step by done.
    by rewrite <- app_assoc, <- registrations_cons.
Qed.

(** No action takes a listener away. *)
Lemma registered_step_grows event a w :
  invariant w → registered event w `prefix_of` registered event (step a w).
Proof.
  intros H.
  destruct a as [o| | |event' cb|h| |b|name ev]; cbn [step].
  - pose proof (setOptions_same o w) as Hs.
    unfold registered. by rewrite (sw_listeners _ _ Hs), (sw_arrays _ _ Hs).
  - pose proof (repaint_same w) as Hs.
    unfold registered. by rewrite (ss_listeners _ _ Hs), (ss_arrays _ _ Hs).
  - destruct (reflow_fields w) as (_ & HL & HA & _). unfold registered. by rewrite HL, HA.
  - by apply registered_on_grows.
  - pose proof (erase_watch_same _ _ (tick_erase h w)) as Hs.
    unfold registered. by rewrite (sw_listeners _ _ Hs), (sw_arrays _ _ Hs).
  - pose proof (erase_watch_same _ _ (resize_erase w)) as Hs.
    unfold registered. by rewrite (sw_listeners _ _ Hs), (sw_arrays _ _ Hs).
  - unfold layout. by destruct (frame w).
  - by rewrite dispatchEvent_eq.
Qed.

Lemma registered_run_grows event l w :
  invariant w → registered event w `prefix_of` registered event (run l w).
Proof.
  revert w. induction l as [|a l IH]; intros w H; [done|].
  rewrite run_cons. etrans; [by apply registered_step_grows|].
  by apply IH, invariant_step.
Qed.

(** No key of [listeners] is an inherited name: [on] throws before it
    would make one. *)
Lemma names_step a w :
  names_ok (listeners w) → names_ok (listeners (step a w)).
Proof.
  intros H.
  destruct a as [o| | |event cb|h| |b|name ev]; cbn [step].
  - by rewrite (sw_listeners _ _ (setOptions_same o w)).
  - by rewrite (ss_listeners _ _ (repaint_same w)).
  - by destruct (reflow_fields w) as (_ & -> & _).
  - destruct (on_cases event cb w)
      as [(a & Ha & ->)|[(Ha & Hi & ->)|(Ha & Hi & ->)] ]; cbn [fst];
      rewrite ?(same_listeners _ _ (sync_same _)); [done| |done].
    simpl. intros e a [Hin|Hin%list_elem_of_singleton]%elem_of_app.
    + by apply (H e a).
    + by injection Hin as -> _.
  - by rewrite (sw_listeners _ _ (erase_watch_same _ _ (tick_erase h w))).
  - by rewrite (sw_listeners _ _ (erase_watch_same _ _ (resize_erase w))).
  - unfold layout. by destruct (frame w).
  - by rewrite dispatchEvent_eq.
Qed.

Lemma names_new uuid o : names_ok (listeners (RootPanel uuid o)).
Proof.
  unfold RootPanel.
  match goal with |- context [setOptions o ?w] =>
    rewrite (sw_listeners _ _ (setOptions_same o w)) end.
  by intros e a ?%elem_of_nil.
Qed.

Lemma names_run l w :
  names_ok (listeners w) → names_ok (listeners (run l w)).
Proof.
  revert w. induction l as [|a l IH]; intros w H; [done|].
  rewrite run_cons. by apply IH, names_step.
Qed.

Lemma reachable_names w : reachable w → names_ok (listeners w).
Proof.
  induction 1 as [uuid o|a w _ IH]; [apply names_new|by apply names_step].
Qed.

(** An event that has its dispatch function has a name of its own. *)
Lemma emitter_not_inherited w event em :
  invariant w → names_ok (listeners w) →
  emitter_map w !! event = Some em →
  inherited event = false ∧ is_Some (assoc event (listeners w)).
Proof.
  intros [(HndL & _ & _) (Halias & _ & _) _ _] Hnames Hem.
  destruct (Halias event em Hem) as (a & _ & Hin).
  split; [by apply (Hnames event a)|].
  by rewrite (elem_assoc _ _ _ HndL Hin).
Qed.

Lemma registered_new event uuid o : registered event (RootPanel uuid o) = [].
Proof.
  unfold RootPanel, registered.
  match goal with |- context [setOptions o ?w] =>
    rewrite (sw_listeners _ _ (setOptions_same o w)) end.
  done.
Qed.

Lemma emitter_run event em l w :
  emitter_map w !! event = Some em →
  emitter_map (run l w) !! event = Some em.
Proof.
  revert w. induction l as [|a l IH]; intros w H; [done|].
  rewrite run_cons. by apply IH, emitter_step.
Qed.

(** ** Dispatching *)

Lemma filter_key_nodup (hs : list (string * emitter)) e :
  NoDup hs.*1 →
  filter (λ h : string * emitter, h.1 = e) hs
  = match assoc e hs with Some em => [(e, em)] | None => [] end.
Proof.
  induction hs as [|[k v] hs IH]; intros Hnd; [done|].
  apply NoDup_cons in Hnd as [Hk Hnd]. rewrite filter_cons. simpl.
  destruct (decide (k = e)) as [->|Hne].
  - rewrite decide_True by done. rewrite IH by done.
    by rewrite (proj2 (assoc_None hs e) Hk).
  - rewrite decide_False by done. by apply IH.
Qed.

Lemma attached_lookup w event :
  invariant w → attached event w = option_list (emitter_map w !! event).
Proof.
  intros [_ (Halias & Hnd & Hiff) _ _]. unfold attached, surface_handlers in *.
  destruct (frame w) as [f|].
  - rewrite filter_key_nodup by done.
    destruct (assoc event (handlers f)) as [em|] eqn:Ha.
    + apply assoc_Some_elem, Hiff in Ha. by rewrite Ha.
    + destruct (emitter_map w !! event) as [em|] eqn:Hem; [|done].
      apply Hiff, (elem_assoc _ _ _ Hnd) in Hem. congruence.
  - destruct (emitter_map w !! event) as [em|] eqn:Hem; [|done].
    by apply Hiff, elem_of_nil in Hem.
Qed.

Lemma emitted_registered w event em ev :
  invariant w → emitter_map w !! event = Some em →
  emitted w ev em = (λ cb, (cb, ev)) <$> registered event w.
Proof.
  intros [(HndL & _ & _) (Halias & _ & _) _ _] Hem.
  destruct (Halias event em Hem) as (a & -> & Hin).
  unfold registered. by rewrite (elem_assoc _ _ _ HndL Hin).
Qed.

Lemma dispatch_calls w event ev :
  invariant w →
  calls (dispatchEvent event ev w)
  = calls w ++ match emitter_map w !! event with
               | Some _ => (λ cb, (cb, ev)) <$> registered event w
               | None => []
               end.
Proof.
  intros H. rewrite dispatchEvent_eq, attached_lookup by done. simpl.
  destruct (emitter_map w !! event) as [em|] eqn:Hem; simpl; [|done].
  by rewrite app_nil_r, (emitted_registered w event em ev H Hem).
Qed.

(** * The behaviour the specification states *)

(** ** Repaint *)

Lemma repaint_returns w :
  is_Some (surface_parent w) ∨ is_Some (Options.container (options w)) →
  ∃ b, (repaint w).2 = Return b ∧ is_Some (surface_parent (repaint w).1).
Proof.
  intros H. destruct (surface_parent w) as [c|] eqn:Hp.
  - unfold surface_parent in Hp.
    destruct (frame w) as [f|] eqn:Hf; [simpl in Hp|done].
    rewrite (repaint_attached w f c Hf Hp), repaint_styles_eq. simpl.
    eexists. split; [done|].
    rewrite (same_parent _ _ (sync_same _)). unfold surface_parent. simpl.
    by rewrite Hp.
  - destruct H as [[? [=]]|[c Hc]].
    rewrite (repaint_attach w c Hp Hc), repaint_styles_eq. simpl.
    eexists. split; [done|].
    by rewrite (same_parent _ _ (sync_same _)).
Qed.

(** [repaint] throws only on a surface that is in no container, when no
    container is configured. *)
Lemma repaint_throws_only_detached w message :
  (repaint w).2 = Throw message →
  Options.container (options w) = None ∧ surface_parent w = None.
Proof.
  intros Hthrow.
  destruct (Options.container (options w)) as [c|] eqn:Hc.
  - destruct (repaint_returns w) as (b & Hb & _); [right; by rewrite Hc|].
    congruence.
  - destruct (surface_parent w) as [c|] eqn:Hp; [|done].
    destruct (repaint_returns w) as (b & Hb & _); [left; by rewrite Hp|].
    congruence.
Qed.

(** C1.  A panel with no container configured whose surface is not yet
    in a container: [repaint] throws the error of line 65, and the
    surface is still in no container afterwards.  [repaint] throws in no
    other situation, and nothing but that error. *)
Theorem repaint_without_container (w : World) :
  ((Options.container (options w) = None ∧ surface_parent w = None)
   ↔ (repaint w).2 = Throw no_container)
  ∧ (∀ message, (repaint w).2 = Throw message →
       message = no_container ∧ surface_parent (repaint w).1 = None).
Proof.
  destruct (Options.container (options w)) as [c|] eqn:Hc.
  - destruct (repaint_returns w) as (b & Hb & _); [right; by rewrite Hc|].
    rewrite Hb. split; [split; [by intros [? ?]|done]|done].
  - destruct (surface_parent w) as [c|] eqn:Hp.
    + destruct (repaint_returns w) as (b & Hb & _); [left; by rewrite Hp|].
      rewrite Hb. split; [split; [by intros [? ?]|done]|done].
    + rewrite (repaint_throw w Hp Hc). simpl.
      split; [done|]. intros m [= <-]. split; [done|].
      unfold surface_parent. simpl. by rewrite surface_or_new_parent.
Qed.

Lemma due_writes_nil o s : due_writes o s = [] ↔ s = configured_style o.
Proof.
  rewrite due_writes_eq. unfold configured_style. destruct s as [t l wd h]. simpl.
  repeat (destruct (decide (_ = _)) as [<-|]); simpl;
    split; try done; intros [= ]; done.
Qed.

(** A surface that sits in a container, carries the configured style
    and has all its dispatch functions is left alone by [repaint]. *)
Lemma repaint_settled w f c :
  frame w = Some f → parentNode f = Some c →
  style f = configured_style (options w) →
  (∀ e a, (e, a) ∈ listeners w → is_Some (emitter_map w !! e)) →
  (listeners w ≠ [] → is_Some (emitters w)) →
  repaint w = (w, Return false).
Proof.
  intros Hf Hp Hs Hall Hsome.
  rewrite (repaint_attached w f c Hf Hp), repaint_styles_eq.
  rewrite (proj2 (due_writes_nil _ _) Hs), app_nil_r.
  rewrite Hs at 1. rewrite repainted_configured, <- Hs.
  rewrite bool_decide_false by tauto. simpl.
  assert (Hw : set_style_writes (style_writes w)
                 (set_frame (Some (set_style (style f) f)) w) = w).
  { clear -Hf. destruct w, f; simpl in *. by subst. }
  rewrite Hw. f_equal. apply fold_update_fixed; [|done].
  destruct (listeners w); [by right|left; by apply Hsome].
Qed.

(** What [repaint] leaves behind when it returns. *)
Lemma repaint_done w b :
  (repaint w).2 = Return b →
  ∃ f c, frame (repaint w).1 = Some f ∧ parentNode f = Some c
         ∧ style f = repainted_style (options w) (style (surface_or_new w))
         ∧ (∀ e a, (e, a) ∈ listeners w →
              is_Some (emitter_map (repaint w).1 !! e))
         ∧ (listeners w ≠ [] → is_Some (emitters (repaint w).1)).
Proof.
  assert (Hshape : ∀ w2 f c,
    frame w2 = Some f → parentNode f = Some c →
    style f = repainted_style (options w) (style (surface_or_new w)) →
    listeners w2 = listeners w →
    ∃ f c, frame (_updateEventEmitters w2) = Some f ∧ parentNode f = Some c
      ∧ style f = repainted_style (options w) (style (surface_or_new w))
      ∧ (∀ e a, (e, a) ∈ listeners w →
           is_Some (emitter_map (_updateEventEmitters w2) !! e))
      ∧ (listeners w ≠ [] → is_Some (emitters (_updateEventEmitters w2)))).
  { intros w2 f c Hf Hp Hs HL.
    pose proof (same_parent _ _ (sync_same w2)) as Hp'.
    pose proof (same_style _ _ (sync_same w2)) as Hs'.
    unfold surface_parent in Hp'. rewrite Hf in Hp', Hs'.
    destruct (frame (_updateEventEmitters w2)) as [f'|]; [|done].
    simpl in *. exists f', c. split_and!; [done|congruence|congruence| |].
    - intros e a Hin. apply (fold_update_covers _ _ e a); [by rewrite Hf|].
      by rewrite HL.
    - intros Hne. apply fold_update_some. by rewrite HL. }
  destruct (surface_parent w) as [c|] eqn:Hp.
  - unfold surface_parent in Hp.
    destruct (frame w) as [f|] eqn:Hf; [simpl in Hp|done].
    assert (Hsn : surface_or_new w = f)
      by (unfold surface_or_new; by rewrite Hf).
    rewrite (repaint_attached w f c Hf Hp), repaint_styles_eq, Hsn in *.
    cbn [fst snd]. intros _. eapply Hshape; [reflexivity|exact Hp|done..].
  - destruct (Options.container (options w)) as [c|] eqn:Hc.
    + rewrite (repaint_attach w c Hp Hc), repaint_styles_eq. cbn [fst snd].
      intros _. eapply Hshape; [reflexivity|reflexivity|done..].
    + by rewrite (repaint_throw w Hp Hc).
Qed.

(** A [repaint] right after one that returned leaves the panel and its
    surface as they are: the style it would write is the style it
    finds, and no event waits for its dispatch function.  It makes its
    assignments all the same, those of the properties whose text is not
    the configured string, and returns true when there is one. *)
Lemma repaint_again w b f :
  (repaint w).2 = Return b → frame (repaint w).1 = Some f →
  repaint (repaint w).1
  = (set_style_writes
       (style_writes (repaint w).1 ++ due_writes (options w) (style f))
       (repaint w).1,
     Return (bool_decide (due_writes (options w) (style f) ≠ []))).
Proof.
  intros Hb Hf.
  destruct (repaint_done w b Hb) as (f' & c & Hf' & Hp & Hs & Hall & Hsome).
  assert (f' = f) as -> by congruence.
  pose proof (repaint_same w) as Hsame.
  rewrite (repaint_attached _ f c Hf Hp), repaint_styles_eq.
  rewrite (ss_options _ _ Hsame).
  assert (Hfix : set_style (repainted_style (options w) (style f)) f = f).
  { rewrite Hs, repainted_twice, <- Hs. by destruct f. }
  rewrite Hfix, (set_frame_same _ f Hf). cbn [orb]. f_equal.
  apply fold_update_fixed.
  - cbn [emitters listeners set_style_writes].
    rewrite (ss_listeners _ _ Hsame).
    destruct (listeners w); [by right|left; by apply Hsome].
  - cbn [listeners set_style_writes]. rewrite (ss_listeners _ _ Hsame).
    intros e a Hin. by apply (Hall e a).
Qed.

Lemma repaint_changed_iff w b :
  (repaint w).2 = Return b →
  (b = true ↔ frame w = None ∨ surface_parent w = None
              ∨ due_writes (options w) (style (surface_or_new w)) ≠ []).
Proof.
  destruct (surface_parent w) as [c|] eqn:Hp.
  - unfold surface_parent in Hp. unfold surface_or_new.
    destruct (frame w) as [f|] eqn:Hf; [simpl in Hp|done].
    rewrite (repaint_attached w f c Hf Hp), repaint_styles_eq. simpl.
    intros [= <-]. rewrite bool_decide_eq_true.
    split; [tauto|]. by intros [?|[?|?] ].
  - destruct (Options.container (options w)) as [c|] eqn:Hc.
    + rewrite (repaint_attach w c Hp Hc), repaint_styles_eq. simpl.
      intros [= <-]. tauto.
    + by rewrite (repaint_throw w Hp Hc).
Qed.

Lemma repaint_writes w b :
  (repaint w).2 = Return b →
  style_writes (repaint w).1
  = style_writes w ++ due_writes (options w) (style (surface_or_new w)).
Proof.
  destruct (surface_parent w) as [c|] eqn:Hp.
  - unfold surface_parent in Hp. unfold surface_or_new.
    destruct (frame w) as [f|] eqn:Hf; [simpl in Hp|done].
    rewrite (repaint_attached w f c Hf Hp), repaint_styles_eq. simpl.
    intros _. by rewrite (same_style_writes _ _ (sync_same _)).
  - destruct (Options.container (options w)) as [c|] eqn:Hc.
    + rewrite (repaint_attach w c Hp Hc), repaint_styles_eq. simpl.
      intros _. by rewrite (same_style_writes _ _ (sync_same _)).
    + by rewrite (repaint_throw w Hp Hc).
Qed.

(** ** Reflow *)

Lemma differs_false v cached : differs v cached = false ↔ cached = Some v.
Proof.
  unfold differs. destruct cached as [c|]; [|done].
  rewrite negb_false_iff, Z.eqb_eq. split; congruence.
Qed.

(** The cached geometry of the panel. *)
Lemma reflow_cache w f :
  frame w = Some f →
  top (reflow w).1 = Some (offsetTop f)
  ∧ left (reflow w).1 = Some (offsetLeft f)
  ∧ width (reflow w).1 = Some (offsetWidth f)
  ∧ height (reflow w).1 = Some (offsetHeight f).
Proof.
  intros Hf. open_reflow w f Hf; rewrite ?differs_false in *; done.
Qed.

Lemma reflow_changed w f :
  frame w = Some f →
  (reflow w).2
  = differs (offsetTop f) (top w) || differs (offsetLeft f) (left w)
    || differs (offsetWidth f) (width w)
    || differs (offsetHeight f) (height w).
Proof.
  intros Hf. by open_reflow w f Hf.
Qed.

Lemma reflow_unchanged w f :
  frame w = Some f →
  ((reflow w).2 = false
   ↔ top w = Some (offsetTop f) ∧ left w = Some (offsetLeft f)
     ∧ width w = Some (offsetWidth f) ∧ height w = Some (offsetHeight f))
  ∧ ((reflow w).2 = false → (reflow w).1 = w).
Proof.
  intros Hf. split.
  - rewrite (reflow_changed w f Hf), !orb_false_iff, !differs_false.
    tauto.
  - by open_reflow w f Hf.
Qed.

(** C6.  Without a surface [reflow] returns true and changes nothing.
    With a surface it leaves the surface's offset top, left, width and
    height in the cached fields and touches nothing else; it returns
    true exactly when one of the cached values changed; and whenever
    the cached values already equal the surface's dimensions, as they
    do right after a [reflow], it returns false. *)
Theorem reflow_result (w : World) :
  let w' := (reflow w).1 in
  let cache v := (top v, left v, width v, height v) in
  (frame w = None → reflow w = (w, true))
  ∧ (∀ f, frame w = Some f →
       cache w' = (Some (offsetTop f), Some (offsetLeft f),
                   Some (offsetWidth f), Some (offsetHeight f))
       ∧ set_top (top w') (set_left (left w')
           (set_width (width w') (set_height (height w') w))) = w'
       ∧ ((reflow w).2 = true ↔ cache w' ≠ cache w)
       ∧ ((reflow w).2 = false ↔
            cache w = (Some (offsetTop f), Some (offsetLeft f),
                       Some (offsetWidth f), Some (offsetHeight f)))
       ∧ reflow w' = (w', false)).
Proof.
  cbv zeta. split.
  - intros Hf. unfold reflow. by rewrite Hf.
  - intros f Hf.
    destruct (reflow_cache w f Hf) as (Ht & Hl & Hw & Hh).
    destruct (reflow_unchanged w f Hf) as [Hiff Hsame].
    assert (Hfalse : (reflow w).2 = false ↔
              (top w, left w, width w, height w)
              = (Some (offsetTop f), Some (offsetLeft f),
                 Some (offsetWidth f), Some (offsetHeight f))).
    { rewrite Hiff. split; [by intros (-> & -> & -> & ->)|by intros [= -> -> -> ->] ]. }
    split_and!.
    + by rewrite Ht, Hl, Hw, Hh.
    + open_reflow w f Hf; by destruct w.
    + rewrite Ht, Hl, Hw, Hh, <- not_false_iff_true, Hfalse.
      split; intros Hne Heq; apply Hne; congruence.
    + done.
    + assert (Hf' : frame (reflow w).1 = Some f).
      { destruct (reflow_fields w) as (_ & _ & _ & _ & -> & _). done. }
      destruct (reflow_unchanged (reflow w).1 f Hf') as [Hiff' Hsame'].
      assert (Hb : (reflow (reflow w).1).2 = false) by by apply Hiff'.
      specialize (Hsame' Hb). destruct (reflow (reflow w).1). simpl in *. congruence.
Qed.

(** ** Event dispatch *)

(** Nothing is ever detached from the surface. *)
Lemma update_emitter_handlers_grow w x :
  surface_handlers w `prefix_of` surface_handlers (update_emitter w x).
Proof.
  destruct x as [e a]. unfold surface_handlers. open_update w m Hm.
  - destruct (m !! e); [done|].
    destruct (frame w) as [f|] eqn:Hf; simpl; [|by rewrite Hf].
    by apply prefix_app_r.
  - destruct (frame w) as [f|] eqn:Hf; simpl; [|by rewrite Hf].
    by apply prefix_app_r.
Qed.

Lemma sync_handlers_grow w :
  surface_handlers w `prefix_of` surface_handlers (_updateEventEmitters w).
Proof.
  unfold _updateEventEmitters, forEach. generalize (listeners w). intros l.
  revert w. induction l as [|x l IH]; intros w; cbn [fold_left]; [done|].
  etrans; [apply update_emitter_handlers_grow|apply IH].
Qed.

Lemma step_handlers_grow a w :
  surface_handlers w `prefix_of` surface_handlers (step a w).
Proof.
  destruct a as [o| | |event cb|h| |b|name ev]; cbn [step].
  - unfold surface_handlers. by rewrite (sw_frame _ _ (setOptions_same o w)).
  - destruct (surface_parent w) as [c|] eqn:Hp.
    + unfold surface_parent in Hp.
      destruct (frame w) as [f|] eqn:Hf; [simpl in Hp|done].
      rewrite (repaint_attached w f c Hf Hp), repaint_styles_eq. cbn [fst].
      etrans; [|apply sync_handlers_grow].
      unfold surface_handlers. simpl. by rewrite Hf.
    + destruct (Options.container (options w)) as [c|] eqn:Hc.
      * rewrite (repaint_attach w c Hp Hc), repaint_styles_eq. cbn [fst].
        etrans; [|apply sync_handlers_grow].
        unfold surface_handlers at 2. simpl.
        by rewrite surface_or_new_handlers.
      * rewrite (repaint_throw w Hp Hc). unfold surface_handlers at 2. simpl.
        by rewrite surface_or_new_handlers.
  - destruct (reflow_fields w) as (_ & _ & _ & _ & Hf & _).
    unfold surface_handlers. by rewrite Hf.
  - destruct (on_cases event cb w)
      as [(a & Ha & ->)|[(Ha & Hi & ->)|(Ha & Hi & ->)] ]; cbn [fst];
      [etrans; [|apply sync_handlers_grow]; done..|done].
  - unfold surface_handlers.
    by rewrite (sw_frame _ _ (erase_watch_same _ _ (tick_erase h w))).
  - unfold surface_handlers.
    by rewrite (sw_frame _ _ (erase_watch_same _ _ (resize_erase w))).
  - unfold layout, surface_handlers.
    destruct (frame w) eqn:Hf; simpl; by rewrite ?Hf.
  - by rewrite dispatchEvent_eq.
Qed.

Lemma attached_handlers event w :
  attached event w
  = (filter (λ h : string * emitter, h.1 = event) (surface_handlers w)).*2.
Proof. unfold attached, surface_handlers. by destruct (frame w). Qed.

Lemma attached_grows event a w :
  attached event w `prefix_of` attached event (step a w).
Proof.
  rewrite !attached_handlers.
  destruct (step_handlers_grow a w) as [k ->].
  rewrite filter_app, fmap_app. by apply prefix_app_r.
Qed.

(** C7.  In a reachable world, for every event name: at most one
    dispatch function is attached to the surface, and it is the one
    kept in [emitters]; a dispatch function exists only when the
    surface exists and the event has a listener; and no action detaches
    what is attached, so that the functions attached now are all that
    were ever attached. *)
Theorem one_dispatch_function_per_event (w : World) (event : string) :
  reachable w →
  length (attached event w) ≤ 1
  ∧ (∀ em, em ∈ attached event w ↔ emitter_map w !! event = Some em)
  ∧ (attached event w ≠ [] ∨ is_Some (emitter_map w !! event) →
       is_Some (frame w) ∧ registered event w ≠ [])
  ∧ (∀ a, attached event w `prefix_of` attached event (step a w)).
Proof.
  intros Hinv%reachable_invariant.
  enough (length (attached event w) ≤ 1
          ∧ (∀ em, em ∈ attached event w ↔ emitter_map w !! event = Some em)
          ∧ (attached event w ≠ [] ∨ is_Some (emitter_map w !! event) →
               is_Some (frame w) ∧ registered event w ≠ []))
    as (H1 & H2 & H3)
    by (split_and!; [done..|intros a; apply attached_grows]).
  rewrite (attached_lookup w event Hinv).
  destruct Hinv as [(HndL & Hne & _) (Halias & Hnd & Hiff) _ _].
  destruct (emitter_map w !! event) as [em|] eqn:Hem; simpl.
  - split_and!; [lia| |].
    + intros em'. rewrite list_elem_of_singleton. split; congruence.
    + intros _. split.
      * apply Hiff in Hem. unfold surface_handlers in Hem.
        destruct (frame w); [done|by apply elem_of_nil in Hem].
      * destruct (Halias event em Hem) as (a & -> & Hin).
        unfold registered. rewrite (elem_assoc _ _ _ HndL Hin).
        by destruct (Hne event a Hin) as (c & l & ->).
  - split_and!; [lia| |].
    + intros em'. split; [by intros ?%elem_of_nil|done].
    + by intros [?|[? ?]].
Qed.

(** C8.  A panel on which exactly two listeners were registered for an
    event, [c1] and then [c2], through whatever history: one raw event
    handed to that event's dispatch function calls [c1] with the raw
    event and then [c2] with the raw event, and nothing else; so does
    one raw event of that name reaching the surface. *)
Theorem two_listeners_in_order (uuid : string) (o : Options.t)
    (l : list action) (event : string) (c1 c2 : callback)
    (em : emitter) (ev : raw_event) :
  let w := run l (RootPanel uuid o) in
  registrations event l = [c1; c2] →
  emitter_map w !! event = Some em →
  calls (call_emitter em ev w) = calls w ++ [(c1, ev); (c2, ev)]
  ∧ calls (dispatchEvent event ev w) = calls w ++ [(c1, ev); (c2, ev)].
Proof.
  intros w Hreg Hem.
  assert (Hinv : invariant w) by apply invariant_run, invariant_new.
  assert (Hown : inherited event = false).
  { apply (emitter_not_inherited w event em Hinv); [|done].
    apply names_run, names_new. }
  assert (Hregd : registered event w = [c1; c2]).
  { unfold w. rewrite registered_run by (done || apply invariant_new).
    by rewrite registered_new, Hreg. }
  split.
  - rewrite call_emitter_eq. simpl.
    by rewrite (emitted_registered w event em ev Hinv Hem), Hregd.
  - by rewrite (dispatch_calls w event ev Hinv), Hem, Hregd.
Qed.

Lemma on_keeps event cb w :
  let w' := (on event cb w).1 in
  options w' = options w
  ∧ (is_Some (frame w') ↔ is_Some (frame w))
  ∧ surface_parent w' = surface_parent w
  ∧ style <$> frame w' = style <$> frame w
  ∧ intervals w' = intervals w ∧ watchTimer w' = watchTimer w
  ∧ reflow_requests w' = reflow_requests w.
Proof.
  cbv zeta.
  destruct (on_cases event cb w)
    as [(a & Ha & ->)|[(Ha & Hi & ->)|(Ha & Hi & ->)] ]; cbn [fst]; [| |done].
  - by destruct (sync_same
      (set_arrays (alter (λ l, l ++ [cb]) a (arrays w)) w)) as [].
  - by destruct (sync_same
      (set_arrays (arrays w ++ [[cb]])
         (set_listeners (listeners w ++ [(event, length (arrays w))]) w)))
      as [].
Qed.

(** After [cb] is registered for [event] and that event's dispatch
    function exists, every later raw event of that name calls [cb]. *)
Lemma listener_stays w event cb em :
  invariant w → cb ∈ registered event w → emitter_map w !! event = Some em →
  ∀ l ev,
    let w' := run l w in
    attached event w' = [em]
    ∧ cb ∈ registered event w'
    ∧ calls (call_emitter em ev w')
      = calls w' ++ ((λ cb, (cb, ev)) <$> registered event w')
    ∧ calls (dispatchEvent event ev w')
      = calls w' ++ ((λ cb, (cb, ev)) <$> registered event w').
Proof.
  intros Hinv Hcb Hem l ev w'.
  assert (Hinv' : invariant w') by by apply invariant_run.
  assert (Hem' : emitter_map w' !! event = Some em) by by apply emitter_run.
  split_and!.
  - by rewrite (attached_lookup w' event Hinv'), Hem'.
  - destruct (registered_run_grows event l w Hinv) as [k Hk].
    unfold w'. rewrite Hk. apply elem_of_app. by left.
  - rewrite call_emitter_eq. simpl.
    by rewrite (emitted_registered w' event em ev Hinv' Hem').
  - by rewrite (dispatch_calls w' event ev Hinv'), Hem'.
Qed.


(** C10.  When an event already has its dispatch function, a listener
    registered afterwards is served by that same function: no second
    one is attached, and every later raw event of that name calls the
    newcomer too, because the function reads the listener array of the
    event when it is called. *)
Theorem late_listener_is_called (w : World) (event : string)
    (em : emitter) (cb : callback) :
  reachable w → emitter_map w !! event = Some em →
  let w1 := (on event cb w).1 in
  registered event w1 = registered event w ++ [cb]
  ∧ ∀ l ev,
      let w2 := run l w1 in
      attached event w2 = [em]
      ∧ cb ∈ registered event w2
      ∧ calls (call_emitter em ev w2)
        = calls w2 ++ ((λ cb, (cb, ev)) <$> registered event w2)
      ∧ calls (dispatchEvent event ev w2)
        = calls w2 ++ ((λ cb, (cb, ev)) <$> registered event w2).
Proof.
  intros Hreach Hem w1.
  assert (Hinv : invariant w) by by apply reachable_invariant.
  assert (Hret : (on event cb w).2 = Return tt).
  { apply on_returns. left.
    by apply (emitter_not_inherited w event em Hinv (reachable_names w Hreach)). }
  assert (Hreg : registered event w1 = registered event w ++ [cb])
    by by apply registered_on_same.
  split; [done|].
  apply listener_stays.
  - by apply invariant_on.
  - rewrite Hreg. apply elem_of_app. right. apply list_elem_of_here.
  - by apply (emitter_step event em (CallOn event cb) w).
Qed.

(** ** The watch and the auto-resize option *)

Lemma unwatch_idle w : watchTimer w = None → _unwatch w = w.
Proof. intros H. unfold _unwatch. by rewrite H. Qed.

Lemma checkSize_no_timer w :
  watchTimer w = None → watchTimer (checkSize w) = None.
Proof.
  intros H. unfold checkSize. destruct (negb _); [by rewrite unwatch_idle|].
  destruct (frame w); [|done]. by destruct (_ || _).
Qed.

Lemma checkSize_off w :
  truthy_flag (Options.autoResize (options w)) = false →
  watchTimer w = None → checkSize w = w.
Proof. intros Hoff H. unfold checkSize. rewrite Hoff. by apply unwatch_idle. Qed.

Lemma iter_checkSize_off n w :
  truthy_flag (Options.autoResize (options w)) = false →
  watchTimer w = None → Nat.iter n checkSize w = w.
Proof.
  intros Hoff H. induction n as [|n IH]; simpl; [done|].
  rewrite IH. by apply checkSize_off.
Qed.

Lemma iter_checkSize_no_timer n w :
  watchTimer w = None → watchTimer (Nat.iter n checkSize w) = None.
Proof.
  intros H. induction n as [|n IH]; simpl; [done|]. by apply checkSize_no_timer.
Qed.

Lemma setOptions_other o w :
  Options.autoResize o = None →
  setOptions o w = set_options (Options.extend (options w) o) w.
Proof. intros H. unfold setOptions. by rewrite H. Qed.

(** No action but a [setOptions] that carries the auto-resize key
    changes that option or starts a timer. *)
Lemma step_keeps_autoResize a w :
  keeps_autoResize a →
  Options.autoResize (options (step a w)) = Options.autoResize (options w)
  ∧ (watchTimer w = None → watchTimer (step a w) = None).
Proof.
  destruct a as [o| | |event cb|h| |b|name ev]; cbn [step keeps_autoResize]; intros Hk.
  - rewrite (setOptions_other o w Hk). simpl. by rewrite Hk.
  - by rewrite (ss_options _ _ (repaint_same w)),
      (ss_watchTimer _ _ (repaint_same w)).
  - destruct (reflow_fields w) as (-> & _ & _ & _ & _ & _ & -> & _). done.
  - destruct (on_keeps event cb w) as (-> & _ & _ & _ & _ & -> & _). done.
  - rewrite (sw_options _ _ (erase_watch_same _ _ (tick_erase h w))).
    split; [done|]. unfold tick. case_bool_decide; [|done].
    apply checkSize_no_timer.
  - rewrite (sw_options _ _ (erase_watch_same _ _ (resize_erase w))).
    split; [done|]. apply iter_checkSize_no_timer.
  - unfold layout. by destruct (frame w).
  - by rewrite dispatchEvent_eq.
Qed.

(** Once the option is off and the timer cleared, the watch is dead:
    nothing it still has attached asks for a reflow. *)
Lemma step_watch_off a w :
  keeps_autoResize a →
  truthy_flag (Options.autoResize (options w)) = false →
  watchTimer w = None → intervals w = [] →
  intervals (step a w) = [] ∧ reflow_requests (step a w) = reflow_requests w.
Proof.
  destruct a as [o| | |event cb|h| |b|name ev]; cbn [step keeps_autoResize]; intros Hk Hoff Ht Hi.
  - by rewrite (setOptions_other o w Hk).
  - by rewrite (ss_intervals _ _ (repaint_same w)),
      (ss_reflow_requests _ _ (repaint_same w)).
  - destruct (reflow_fields w) as (_ & _ & _ & _ & _ & -> & _ & -> & _). done.
  - destruct (on_keeps event cb w) as (_ & _ & _ & _ & -> & _ & ->). done.
  - unfold tick. rewrite Hi. by rewrite bool_decide_false by apply not_elem_of_nil.
  - unfold resize. by rewrite iter_checkSize_off.
  - unfold layout. by destruct (frame w).
  - by rewrite dispatchEvent_eq.
Qed.

(** The path that does follow the option: a [setOptions] that carries
    the auto-resize key leaves a timer exactly when the option reads
    true. *)
Lemma explicit_autoResize_is_followed o v w :
  timer_ok (intervals w) (watchTimer w) →
  Options.autoResize o = Some v →
  is_Some (watchTimer (setOptions o w))
  ↔ asBoolean (Options.autoResize (options (setOptions o w))) = true.
Proof.
  intros Hok Hv. unfold setOptions. rewrite Hv.
  cbn [options set_options Options.extend Options.autoResize Options.or_else].
  rewrite Hv. destruct (asBoolean (Some v)) eqn:Hb.
  - change (is_Some (watchTimer (_watch w)) ↔ asBoolean (Some v) = true).
    rewrite Hb. destruct (watch_timer w Hok) as [_ ->]. by split; [|eexists].
  - change (is_Some (watchTimer (_unwatch w)) ↔ asBoolean (Some v) = true).
    rewrite Hb. destruct (unwatch_timer w Hok) as [_ ->]. split; [by intros [? ?]|done].
Qed.

(** The timer follows the option from the first time the option is
    given explicitly: every action keeps them in step. *)
Lemma watch_follows_option_step a w :
  timer_ok (intervals w) (watchTimer w) →
  (is_Some (watchTimer w)
   ↔ asBoolean (Options.autoResize (options w)) = true) →
  is_Some (watchTimer (step a w))
  ↔ asBoolean (Options.autoResize (options (step a w))) = true.
Proof.
  intros Hok Hiff.
  assert (Hcheck : ∀ v,
    (is_Some (watchTimer v)
     ↔ asBoolean (Options.autoResize (options v)) = true) →
    is_Some (watchTimer (checkSize v))
    ↔ asBoolean (Options.autoResize (options (checkSize v))) = true).
  { intros v Hv.
    rewrite (sw_options _ _ (erase_watch_same _ _ (checkSize_erase v))).
    unfold checkSize.
    destruct (truthy_flag (Options.autoResize (options v))) eqn:Ht; simpl.
    - destruct (frame v); [|done]. by destruct (_ || _).
    - assert (Hb : asBoolean (Options.autoResize (options v)) = false).
      { destruct (Options.autoResize (options v)) as [ [b|g]|]; simpl in *;
          congruence. }
      rewrite Hb in *. unfold _unwatch.
      destruct (watchTimer v) eqn:Hwt; simpl;
        [split; [by intros [? ?]|done] | by rewrite Hwt]. }
  destruct a as [o| | |event cb|h| |b|name ev]; cbn [step].
  - destruct (Options.autoResize o) as [v|] eqn:Hv.
    + by apply (explicit_autoResize_is_followed o v).
    + rewrite (setOptions_other o w Hv). simpl. by rewrite Hv.
  - by rewrite (ss_options _ _ (repaint_same w)),
      (ss_watchTimer _ _ (repaint_same w)).
  - by destruct (reflow_fields w) as (-> & _ & _ & _ & _ & _ & -> & _).
  - by pose proof (on_keeps event cb w) as (-> & _ & _ & _ & _ & -> & _).
  - unfold tick. case_bool_decide; [by apply Hcheck|done].
  - unfold resize. induction (resize_handlers w) as [|n IH]; [done|].
    simpl. by apply Hcheck.
  - unfold layout. by destruct (frame w).
  - by rewrite dispatchEvent_eq.
Qed.

Lemma watch_follows_explicit_option uuid o l :
  is_Some (Options.autoResize o) →
  let w := run l (RootPanel uuid o) in
  is_Some (watchTimer w)
  ↔ asBoolean (Options.autoResize (options w)) = true.
Proof.
  intros [v Hv]. cbv zeta.
  assert (H0 : invariant (RootPanel uuid o)) by apply invariant_new.
  assert (H1 : is_Some (watchTimer (RootPanel uuid o))
               ↔ asBoolean (Options.autoResize (options (RootPanel uuid o)))
                 = true)
    by by apply (explicit_autoResize_is_followed o v).
  revert H0 H1. generalize (RootPanel uuid o).
  induction l as [|a l IH]; intros w Hinv Hiff; [done|].
  rewrite run_cons. apply IH; [by apply invariant_step|].
  apply watch_follows_option_step; [apply Hinv|done].
Qed.

(** C2, at the input where the code departs from it.  A panel built
    from a configuration without the auto-resize key has the option
    enabled, by the default of line 20, and no timer: the constructor
    hands the configuration to [setOptions], which starts the watch
    only for a configuration that carries the key.  No later action
    that leaves the option alone starts the watch either. *)
Theorem default_configuration_is_not_watched (uuid : string)
    (o : Options.t) (l : list action) :
  Options.autoResize o = None → Forall keeps_autoResize l →
  let w := run l (RootPanel uuid o) in
  asBoolean (Options.autoResize (options w)) = true
  ∧ truthy_flag (Options.autoResize (options w)) = true
  ∧ watchTimer w = None.
Proof.
  intros Ho Hl.
  assert (H0 : Options.autoResize (options (RootPanel uuid o)) = Some (Flag true)
               ∧ watchTimer (RootPanel uuid o) = None).
  { unfold RootPanel. rewrite setOptions_other by done. simpl. by rewrite Ho. }
  revert H0. generalize (RootPanel uuid o).
  induction Hl as [|a l Ha Hl IH]; intros w [Hopt Ht]; cbv zeta.
  - simpl. by rewrite Hopt.
  - rewrite run_cons. apply IH.
    destruct (step_keeps_autoResize a w Ha) as [-> Hnone]. auto.
Qed.

(** The path on which the watch does stop: the option set to the
    boolean false.  On a reachable panel this clears the interval timer;
    and from then on, as long as the option is not set again, no timer
    runs and the count of reflow requests stays where it was, whatever
    the panel is asked to do and whatever the host sends: a tick of any
    timer handle, a resize of the window (whose handlers are still
    attached), new dimensions, raw events. *)
Lemma boolean_false_stops_the_watch (w : World) (o : Options.t)
    (l : list action) :
  reachable w → Options.autoResize o = Some (Flag false) →
  Forall keeps_autoResize l →
  let w' := setOptions o w in
  watchTimer w' = None ∧ intervals w' = []
  ∧ resize_handlers w' = resize_handlers w
  ∧ watchTimer (run l w') = None ∧ intervals (run l w') = []
  ∧ reflow_requests (run l w') = reflow_requests w'.
Proof.
  intros Hinv%reachable_invariant Ho Hl w'.
  assert (H0 : truthy_flag (Options.autoResize (options w')) = false
               ∧ watchTimer w' = None ∧ intervals w' = []
               ∧ resize_handlers w' = resize_handlers w).
  { unfold w', setOptions. rewrite Ho.
    cbn [options set_options Options.extend Options.autoResize
         Options.or_else asBoolean].
    rewrite Ho.
    change (false = false ∧ watchTimer (_unwatch w) = None
            ∧ intervals (_unwatch w) = []
            ∧ resize_handlers (_unwatch w) = resize_handlers w).
    destruct (unwatch_timer w (inv_timer w Hinv)) as [-> ->].
    split_and!; try done. unfold _unwatch. by destruct (watchTimer w). }
  destruct H0 as (Hoff & Ht & Hi & Hr). split_and!; try done;
    clear Hr; revert Hoff Ht Hi; generalize w'; clear w' Hinv w;
    induction Hl as [|a l Ha Hl IH]; intros w Hoff Ht Hi; try done;
    rewrite run_cons;
    destruct (step_keeps_autoResize a w Ha) as [Hopt Hnone];
    destruct (step_watch_off a w Ha Hoff Ht Hi) as [Hi' Hreq];
    rewrite IH; rewrite ?Hopt; auto.
Qed.

(** With the option on, [checkSize] asks for a reflow exactly when the
    surface exists and its client size is not the cached one. *)
Lemma checkSize_on w :
  truthy_flag (Options.autoResize (options w)) = true →
  checkSize w = if size_mismatch w then requestReflow w else w.
Proof.
  intros Hon. unfold checkSize, size_mismatch. rewrite Hon. simpl.
  by destruct (frame w).
Qed.

Lemma iter_checkSize_on n w :
  truthy_flag (Options.autoResize (options w)) = true →
  Nat.iter n checkSize w
  = set_reflow_requests
      (reflow_requests w + if size_mismatch w then n else 0) w.
Proof.
  intros Hon. induction n as [|n IH]; simpl.
  - destruct (size_mismatch w); rewrite Nat.add_0_r; by destruct w.
  - rewrite IH, checkSize_on by done.
    unfold size_mismatch. simpl. fold (size_mismatch w).
    destruct (size_mismatch w); [|done].
    unfold requestReflow. simpl. by rewrite Nat.add_succ_r.
Qed.

(** C3, at the input where the code departs from it.  The auto-resize
    option may be a function (line 13).  [setOptions] calls it (line
    33), so an option producing false clears the interval timer; but
    [checkSize] tests the option itself (line 154), and a function is
    truthy.  So after the option is set to a function producing false,
    and after whatever happens later that leaves the option alone, no
    timer runs, and yet at a resize of the window every handler still
    attached to it asks for a reflow of a surface whose client size is
    not the cached size, instead of cancelling itself. *)
Theorem produced_false_does_not_stop_the_watch (w : World)
    (o : Options.t) (g : unit → bool) (l : list action) :
  reachable w →
  Options.autoResize o = Some (FlagProducer g) → g tt = false →
  Forall keeps_autoResize l →
  let w' := run l (setOptions o w) in
  asBoolean (Options.autoResize (options w')) = false
  ∧ watchTimer w' = None ∧ intervals w' = []
  ∧ reflow_requests (resize w')
    = reflow_requests w'
      + (if size_mismatch w' then resize_handlers w' else 0).
Proof.
  intros Hreach Ho Hg Hl.
  pose proof (reachable_invariant w Hreach) as Hinv.
  pose proof (setOptions_same o w) as Hs.
  assert (H0 : Options.autoResize (options (setOptions o w))
               = Some (FlagProducer g)
               ∧ watchTimer (setOptions o w) = None).
  { split.
    - rewrite (sw_options _ _ Hs). simpl. by rewrite Ho.
    - unfold setOptions. rewrite Ho. cbn [asBoolean]. rewrite Hg.
      cbn [watchTimer set_options].
      by destruct (unwatch_timer w (inv_timer w Hinv)) as [_ ->]. }
  assert (Hinv0 : invariant (setOptions o w)) by by apply invariant_setOptions.
  revert H0 Hinv0. generalize (setOptions o w). clear Hs Hinv Hreach w.
  induction Hl as [|a l Ha Hl IH]; intros w [Hopt Ht] Hinv; cbv zeta.
  - cbn [run fold_left]. split_and!.
    + by rewrite Hopt.
    + done.
    + pose proof (inv_timer w Hinv) as Hok. unfold timer_ok in Hok.
      by rewrite Hok, Ht.
    + unfold resize. rewrite iter_checkSize_on by by rewrite Hopt. done.
  - rewrite run_cons. apply IH; [|by apply invariant_step].
    destruct (step_keeps_autoResize a w Ha) as [-> Hnone]. auto.
Qed.

(** ** A surface that carries the configured strings *)

Lemma repaint_of_settled w :
  invariant w → settled w → repaint w = (w, Return false).
Proof.
  intros [_ _ [Hpend Hsome] _] [[c Hp] Hs]. unfold surface_parent in Hp.
  destruct (frame w) as [f|] eqn:Hf; [simpl in *|done].
  apply (repaint_settled w f c); try done; [congruence|].
  intros e a Hin. apply (Hpend ltac:(unfold surface_parent; rewrite Hf; by eexists) e a Hin).
Qed.

Lemma step_keeps_surface a w :
  invariant w → settled w →
  surface_parent (step a w) = surface_parent w
  ∧ style <$> frame (step a w) = style <$> frame w.
Proof.
  intros Hinv Hset.
  destruct a as [o| | |event cb|h| |b|name ev]; cbn [step].
  - unfold surface_parent. by rewrite (sw_frame _ _ (setOptions_same o w)).
  - by rewrite repaint_of_settled.
  - destruct (reflow_fields w) as (_ & _ & _ & _ & Hf & _).
    unfold surface_parent. by rewrite Hf.
  - pose proof (on_keeps event cb w) as (_ & _ & Hp & Hs & _). by split.
  - unfold surface_parent.
    by rewrite (sw_frame _ _ (erase_watch_same _ _ (tick_erase h w))).
  - unfold surface_parent.
    by rewrite (sw_frame _ _ (erase_watch_same _ _ (resize_erase w))).
  - unfold layout, surface_parent.
    destruct (frame w) eqn:Hf; simpl; by rewrite ?Hf.
  - by rewrite dispatchEvent_eq.
Qed.

Lemma settled_run l w :
  invariant w → settled w →
  (∀ l1 l2, l = l1 ++ l2 → options (run l1 w) = options w) →
  settled (run l w).
Proof.
  revert w. induction l as [|a l IH]; intros w Hinv Hset Hopt; [done|].
  rewrite run_cons.
  assert (Ho : options (step a w) = options w) by apply (Hopt [a] l eq_refl).
  apply IH.
  - by apply invariant_step.
  - destruct Hset as [Hp Hs].
    destruct (step_keeps_surface a w Hinv (conj Hp Hs)) as [Hp' Hs'].
    split; [by rewrite Hp'|by rewrite Hs', Ho].
  - intros l1 l2 ->. rewrite Ho. apply (Hopt (a :: l1) l2 eq_refl).
Qed.

(** ** Repeating [repaint] on the default position *)

Lemma never_bare_transfer p w w' :
  (configured p (options w') = None → configured p (options w) = None) →
  style <$> frame w' = style <$> frame w →
  never_bare p w → never_bare p w'.
Proof.
  intros Ho Hs Hw Hp f' Hf'. rewrite Hf' in Hs.
  destruct (frame w) as [f|] eqn:Hf; [|done].
  injection Hs as ->. by apply (Hw (Ho Hp) f).
Qed.

Lemma fallback_nonempty p : fallback p ≠ "".
Proof. by destruct p. Qed.

Lemma surface_or_new_bare p w :
  never_bare p w → configured p (options w) = None →
  Style.get p (style (surface_or_new w)) ≠ fallback p.
Proof.
  intros Hw Hp. unfold surface_or_new.
  destruct (frame w) as [f|] eqn:Hf; simpl; [by apply Hw|].
  destruct (new_surface_fresh (options w)) as (_ & -> & _).
  intros Heq. apply (fallback_nonempty p). by destruct p.
Qed.

Lemma get_repainted p o s :
  Style.get p (repainted_style o s)
  = restyled p (asSize (configured p o) (fallback p)) (Style.get p s).
Proof. by destruct p. Qed.

Lemma extend_configured p old new :
  configured p (Options.extend old new) = None → configured p old = None.
Proof.
  destruct p; simpl;
    [destruct (Options.top new)|destruct (Options.left new)
    |destruct (Options.width new)|destruct (Options.height new)]; done.
Qed.

(** Unless the host reads the default string of [p] back as it was
    written, the text of [p] on a surface whose panel has [p] not
    configured is never that string: it is unset, or it reads what the
    host made of the default that [repaint] assigned. *)
Lemma never_bare_step p a w :
  serialize p (fallback p) ≠ Some (fallback p) →
  never_bare p w → never_bare p (step a w).
Proof.
  intros Hhost Hw.
  destruct a as [o| | |event cb|h| |b|name ev]; cbn [step].
  - pose proof (setOptions_same o w) as Hs.
    apply (never_bare_transfer p w); [|by rewrite (sw_frame _ _ Hs)|done].
    rewrite (sw_options _ _ Hs). apply extend_configured.
  - intros Hp f' Hf'. rewrite (ss_options _ _ (repaint_same w)) in Hp.
    pose proof (surface_or_new_bare p w Hw Hp) as Hcur.
    destruct (repaint w) as [w' [b|m] ] eqn:Hr.
    + destruct (repaint_done w b) as (f & c & Hf & _ & Hs & _);
        [by rewrite Hr|].
      rewrite Hr in Hf. simpl in Hf, Hf'.
      assert (f' = f) as -> by congruence.
      rewrite Hs, get_repainted, Hp. cbn [asSize].
      unfold restyled. rewrite decide_False by done.
      destruct (serialize p (fallback p)) as [text|] eqn:Ht; simpl; [|done].
      congruence.
    + destruct (repaint_throws_only_detached w m) as [Hc Hpar];
        [by rewrite Hr|].
      rewrite (repaint_throw w Hpar Hc) in Hr. injection Hr as <- _.
      simpl in Hf'. by injection Hf' as <-.
  - destruct (reflow_fields w) as (Ho & _ & _ & _ & Hf & _).
    apply (never_bare_transfer p w); [by rewrite Ho|by rewrite Hf|done].
  - destruct (on_keeps event cb w) as (Ho & _ & _ & Hs & _).
    apply (never_bare_transfer p w); [by rewrite Ho|done|done].
  - pose proof (erase_watch_same _ _ (tick_erase h w)) as Hs.
    apply (never_bare_transfer p w);
      [by rewrite (sw_options _ _ Hs)|by rewrite (sw_frame _ _ Hs)|done].
  - pose proof (erase_watch_same _ _ (resize_erase w)) as Hs.
    apply (never_bare_transfer p w);
      [by rewrite (sw_options _ _ Hs)|by rewrite (sw_frame _ _ Hs)|done].
  - apply (never_bare_transfer p w); [| |done]; unfold layout;
      destruct (frame w) eqn:Hf; simpl; by rewrite ?Hf.
  - rewrite dispatchEvent_eq. by apply (never_bare_transfer p w).
Qed.

Lemma reachable_never_bare p w :
  serialize p (fallback p) ≠ Some (fallback p) →
  reachable w → never_bare p w.
Proof.
  intros Hhost. induction 1 as [uuid o|a w _ IH]; [|by apply never_bare_step].
  intros _ f Hf. exfalso. revert Hf. unfold RootPanel.
  match goal with |- context [setOptions o ?v] =>
    rewrite (sw_frame _ _ (setOptions_same o v)) end.
  done.
Qed.

(** With [p] not configured, the assignment of its default string is due
    at every [repaint]. *)
Lemma default_is_due p w :
  never_bare p w → configured p (options w) = None →
  (p, fallback p) ∈ due_writes (options w) (style (surface_or_new w)).
Proof.
  intros Hw Hp. pose proof (surface_or_new_bare p w Hw Hp) as Hcur.
  unfold due_writes. apply list_elem_of_filter. split; [done|].
  destruct p; simpl in Hp; rewrite Hp; cbn [asSize fallback];
    repeat first [apply list_elem_of_here | apply list_elem_of_further].
Qed.

Lemma repaint_default w b p :
  never_bare p w → configured p (options w) = None →
  (repaint w).2 = Return b → b = true.
Proof.
  intros Hw Hp Hb. apply (repaint_changed_iff w b Hb). right; right.
  intros Hnil. pose proof (default_is_due p w Hw Hp) as Hin.
  rewrite Hnil in Hin. by apply elem_of_nil in Hin.
Qed.

(** C4, at the input where the code departs from it.  A panel with a
    container and no top configured (or no left), on a host that does
    not read "0" back as "0" (a browser reads it back as "0px"):
    [repaint] compares the text of the surface's top with the default
    "0" (line 73), finds them different every time, assigns and sets
    [changed].  So a [repaint] returns true, and so does every [repaint]
    that follows it, at once or after anything that left the
    configuration as it was.  The same holds of any of the four
    properties [p] that is not configured, where the host does not read
    its default string back as written. *)
Theorem repeated_repaint_returns_true (w : World) (c : element)
    (l : list action) (p : style_prop) :
  serialize p (fallback p) ≠ Some (fallback p) →
  reachable w → Options.container (options w) = Some c →
  configured p (options w) = None →
  let w1 := (repaint w).1 in
  options (run l w1) = options w1 →
  (repaint w).2 = Return true ∧ (repaint (run l w1)).2 = Return true.
Proof.
  intros Hhost Hreach Hc Hp w1 Hopt.
  assert (Ho1 : options w1 = options w) by apply (ss_options _ _ (repaint_same w)).
  assert (Hreach' : reachable (run l w1))
    by apply reachable_run, (reachable_step CallRepaint), Hreach.
  split.
  - destruct (repaint_returns w) as (b & Hb & _); [right; by rewrite Hc|].
    rewrite Hb. f_equal.
    by apply (repaint_default w b p (reachable_never_bare p w Hhost Hreach)).
  - destruct (repaint_returns (run l w1)) as (b & Hb & _).
    { right. by rewrite Hopt, Ho1, Hc. }
    rewrite Hb. f_equal.
    apply (repaint_default _ b p (reachable_never_bare p _ Hhost Hreach'));
      [|done].
    by rewrite Hopt, Ho1.
Qed.

(** C5, at the input where the code departs from it; the defect is the
    one of C4.  A panel with a container and no top configured (or no
    left), on a host that does not read "0" back as "0": the [repaint]
    that follows a [repaint] assigns "0" to the top of the surface again
    and returns true, and yet it changed nothing: the surface with its
    style, its container and its dispatch functions, and the panel, are
    what they were, the assignment having left the text the host already
    held.  Only the record of the assignments made tells the two worlds
    apart.  The same holds of any of the four properties [p] that is not
    configured, where the host does not read its default string back as
    written. *)
Theorem repaint_reports_a_change_it_did_not_make (w : World)
    (c : element) (p : style_prop) :
  serialize p (fallback p) ≠ Some (fallback p) →
  reachable w → Options.container (options w) = Some c →
  configured p (options w) = None →
  let w1 := (repaint w).1 in
  let w2 := (repaint w1).1 in
  (repaint w1).2 = Return true
  ∧ frame w2 = frame w1
  ∧ set_style_writes (style_writes w1) w2 = w1
  ∧ ∃ ws, style_writes w2 = style_writes w1 ++ ws ∧ (p, fallback p) ∈ ws.
Proof.
  intros Hhost Hreach Hc Hp w1 w2.
  destruct (repaint_returns w) as (b & Hb & _); [right; by rewrite Hc|].
  destruct (repaint_done w b Hb) as (f & c' & Hf & _).
  assert (Hreach1 : reachable w1) by apply (reachable_step CallRepaint), Hreach.
  assert (Ho1 : options w1 = options w) by apply (ss_options _ _ (repaint_same w)).
  pose proof (default_is_due p w1 (reachable_never_bare p w1 Hhost Hreach1))
    as Hdue.
  assert (Hsn : surface_or_new w1 = f)
    by (unfold surface_or_new, w1; by rewrite Hf).
  rewrite Ho1, Hsn in Hdue. specialize (Hdue Hp).
  pose proof (repaint_again w b f Hb Hf) as Hagain. fold w1 in Hagain.
  unfold w2. rewrite Hagain. cbn [fst snd].
  split_and!.
  - rewrite bool_decide_true; [done|].
    intros Hnil. rewrite Hnil in Hdue. by apply elem_of_nil in Hdue.
  - done.
  - by destruct w1.
  - by eexists.
Qed.

(** * Further properties of the code *)

(** ** The watch (lines 148-186) *)

Lemma unwatch_fields w :
  next_timer (_unwatch w) = next_timer w
  ∧ resize_handlers (_unwatch w) = resize_handlers w
  ∧ reflow_requests (_unwatch w) = reflow_requests w.
Proof. unfold _unwatch. by destruct (watchTimer w) eqn:Hw. Qed.

Lemma checkSize_fields w :
  next_timer (checkSize w) = next_timer w
  ∧ resize_handlers (checkSize w) = resize_handlers w
  ∧ (watchTimer (checkSize w) = watchTimer w ∨ watchTimer (checkSize w) = None).
Proof.
  unfold checkSize. destruct (negb _).
  - destruct (unwatch_fields w) as (-> & -> & _). split_and!; [done..|].
    unfold _unwatch. destruct (watchTimer w) eqn:Hw; [by right|by left].
  - destruct (frame w) eqn:Hf; [|by split_and!; [..|left] ].
    destruct (_ || _); by split_and!; [..|left].
Qed.

Lemma iter_checkSize_fields n w :
  next_timer (Nat.iter n checkSize w) = next_timer w
  ∧ resize_handlers (Nat.iter n checkSize w) = resize_handlers w
  ∧ (watchTimer (Nat.iter n checkSize w) = watchTimer w
     ∨ watchTimer (Nat.iter n checkSize w) = None).
Proof.
  induction n as [|n [IH1 [IH2 IH3] ] ]; simpl; [by split_and!; [..|left] |].
  destruct (checkSize_fields (Nat.iter n checkSize w)) as (-> & -> & H3).
  split_and!; [done..|]. destruct H3 as [-> | ->]; [done|by right].
Qed.

Lemma watch_fields w :
  next_timer (_watch w) = Pos.succ (next_timer w)
  ∧ resize_handlers (_watch w) = S (resize_handlers w)
  ∧ watchTimer (_watch w) = Some (next_timer w).
Proof.
  unfold _watch, setInterval, addResizeListener. simpl.
  by destruct (unwatch_fields w) as (-> & -> & _).
Qed.

Lemma reflow_watch_fields w :
  next_timer (reflow w).1 = next_timer w
  ∧ resize_handlers (reflow w).1 = resize_handlers w
  ∧ watchTimer (reflow w).1 = watchTimer w.
Proof.
  destruct (frame w) as [f|] eqn:Hf; [by open_reflow w f Hf|].
  unfold reflow. by rewrite Hf.
Qed.

(** What a step does to the handlers on the window and to the handles:
    nothing, or it clears the timer, or, switching the watch on, it adds
    a handler and takes the next handle. *)
Lemma step_timer_cases a w :
  (starts_watch a = false
   ∧ next_timer (step a w) = next_timer w
   ∧ resize_handlers (step a w) = resize_handlers w
   ∧ (watchTimer (step a w) = watchTimer w ∨ watchTimer (step a w) = None))
  ∨ (starts_watch a = true
     ∧ next_timer (step a w) = Pos.succ (next_timer w)
     ∧ resize_handlers (step a w) = S (resize_handlers w)
     ∧ watchTimer (step a w) = Some (next_timer w)).
Proof.
  destruct a as [o| | |event cb|h| |b|name ev]; cbn [step starts_watch].
  - unfold setOptions. destruct (Options.autoResize o) as [v|];
      [|left; by split_and!; [..|left] ].
    destruct (asBoolean (Some v)).
    + right. cbn [next_timer resize_handlers watchTimer set_options].
      by destruct (watch_fields w) as (-> & -> & ->).
    + left. cbn [next_timer resize_handlers watchTimer set_options].
      destruct (unwatch_fields w) as (-> & -> & _). split_and!; [done..|].
      unfold _unwatch. destruct (watchTimer w) eqn:Hw; [by right|by left].
  - pose proof (repaint_same w) as Hs. left.
    split_and!; [done|apply Hs..|left; apply Hs].
  - left. destruct (reflow_watch_fields w) as (? & ? & ?).
    by split_and!; [..|left].
  - left.
    destruct (on_cases event cb w)
      as [(a & Ha & ->)|[(Ha & Hi & ->)|(Ha & Hi & ->)] ]; cbn [fst];
      [| |by split_and!; [..|left] ].
    + match goal with |- context [_updateEventEmitters ?v] =>
        pose proof (sync_same v) as Hs end.
      split_and!; [done|apply Hs..|left; apply Hs].
    + match goal with |- context [_updateEventEmitters ?v] =>
        pose proof (sync_same v) as Hs end.
      split_and!; [done|apply Hs..|left; apply Hs].
  - left. unfold tick. case_bool_decide; [|by split_and!; [..|left] ].
    by destruct (checkSize_fields w) as (? & ? & ?).
  - left. unfold resize.
    by destruct (iter_checkSize_fields (resize_handlers w) w) as (? & ? & ?).
  - left. unfold layout. destruct (frame w); by split_and!; [..|left].
  - left. rewrite dispatchEvent_eq. by split_and!; [..|left].
Qed.

Lemma step_timer_fresh a w : timer_fresh w → timer_fresh (step a w).
Proof.
  unfold timer_fresh. intros Hfresh h.
  destruct (step_timer_cases a w) as [(_ & -> & _ & [-> | ->])|(_ & -> & _ & ->)].
  - auto.
  - done.
  - intros [= <-]. apply Pos.lt_succ_diag_r.
Qed.

Lemma reachable_timer_fresh w : reachable w → timer_fresh w.
Proof.
  induction 1 as [uuid o|a w _ IH].
  - unfold RootPanel.
    match goal with |- timer_fresh (setOptions o ?v) =>
      apply (step_timer_fresh (CallSetOptions o) v) end.
    by intros h.
  - by apply step_timer_fresh.
Qed.

(** A handle below [next_timer] that the panel does not hold is never
    held again. *)
Lemma stale_handle_run h l w :
  (h < next_timer w)%positive → watchTimer w ≠ Some h →
  (h < next_timer (run l w))%positive ∧ watchTimer (run l w) ≠ Some h.
Proof.
  revert w. induction l as [|a l IH]; intros w Hlt Hne; [done|].
  rewrite run_cons. apply IH.
  - destruct (step_timer_cases a w) as [(_ & -> & _)|(_ & -> & _)]; [done|].
    by apply Pos.lt_lt_succ.
  - destruct (step_timer_cases a w)
      as [(_ & _ & _ & [-> | ->])|(_ & _ & _ & ->)]; [done|done|].
    intros [= Heq]. rewrite Heq in Hlt. by apply Pos.lt_irrefl in Hlt.
Qed.

Lemma tick_of_other_handle w h :
  timer_ok (intervals w) (watchTimer w) → watchTimer w ≠ Some h →
  tick h w = w.
Proof.
  unfold timer_ok. intros Ht Hne. unfold tick. rewrite Ht.
  rewrite bool_decide_false; [done|].
  destruct (watchTimer w) as [h'|]; simpl.
  - rewrite list_elem_of_singleton. congruence.
  - apply not_elem_of_nil.
Qed.

(** X1.  On a reachable panel at most one interval timer runs, and it is
    the one the panel holds in [watchTimer]; a tick that belongs to any
    other handle finds no timer and changes nothing. *)
Theorem at_most_one_timer (w : World) (h : timer) :
  reachable w →
  intervals w = option_list (watchTimer w)
  ∧ (watchTimer w ≠ Some h → tick h w = w).
Proof.
  intros Hinv%reachable_invariant. pose proof (inv_timer w Hinv) as Ht.
  split; [done|]. by apply tick_of_other_handle.
Qed.

(** X2.  Switching the watch on while a timer runs replaces that timer:
    the old one is cleared, the new one has a handle never given out
    before, and the old handle is dead for good: whatever happens
    later, the panel never holds it again and its ticks change
    nothing. *)
Theorem watch_restart_replaces_the_timer (w : World) (o : Options.t)
    (v : bool_option) (h : timer) (l : list action) :
  reachable w → watchTimer w = Some h →
  Options.autoResize o = Some v → asBoolean (Some v) = true →
  let w' := setOptions o w in
  intervals w = [h]
  ∧ intervals w' = [next_timer w] ∧ watchTimer w' = Some (next_timer w)
  ∧ next_timer w ≠ h
  ∧ watchTimer (run l w') ≠ Some h ∧ tick h (run l w') = run l w'.
Proof.
  intros Hreach Hh Ho Hv w'.
  pose proof (reachable_invariant w Hreach) as Hinv.
  pose proof (inv_timer w Hinv) as Ht.
  pose proof (reachable_timer_fresh w Hreach h Hh) as Hlt.
  assert (Hw' : intervals w' = [next_timer w]
                ∧ watchTimer w' = Some (next_timer w)
                ∧ next_timer w' = Pos.succ (next_timer w)).
  { unfold w', setOptions. rewrite Ho, Hv.
    cbn [intervals watchTimer next_timer set_options].
    destruct (watch_timer w Ht) as [-> ->].
    by destruct (watch_fields w) as (-> & _). }
  destruct Hw' as (Hi' & Ht' & Hn').
  assert (Hneq : next_timer w ≠ h) by (intros Heq; rewrite Heq in Hlt; by apply Pos.lt_irrefl in Hlt).
  destruct (stale_handle_run h l w') as [_ Hstale].
  { rewrite Hn'. by apply Pos.lt_lt_succ. }
  { rewrite Ht'. congruence. }
  split_and!; try done.
  - unfold timer_ok in Ht. by rewrite Ht, Hh.
  - apply tick_of_other_handle; [|done].
    apply (inv_timer _ (invariant_run l w' (invariant_setOptions o w Hinv))).
Qed.

Lemma resize_handlers_run l w :
  resize_handlers (run l w)
  = resize_handlers w + length (filter (λ a, starts_watch a = true) l).
Proof.
  revert w. induction l as [|a l IH]; intros w; [by rewrite Nat.add_0_r|].
  rewrite run_cons, IH, filter_cons.
  destruct (step_timer_cases a w) as [(Hs & _ & -> & _)|(Hs & _ & -> & _)];
    rewrite Hs.
  - by rewrite decide_False by done.
  - rewrite decide_True by done. simpl. by rewrite Nat.add_succ_r.
Qed.

(** X3.  The handlers on the window only accumulate: after any history
    their number is the number of times the watch was switched on, by
    the constructor's configuration or by a later [setOptions].
    Switching the watch off, or on again, removes none. *)
Theorem resize_handlers_accumulate (uuid : string) (o : Options.t)
    (l : list action) :
  resize_handlers (run l (RootPanel uuid o))
  = length (filter (λ a, starts_watch a = true) (CallSetOptions o :: l)).
Proof.
  rewrite resize_handlers_run, filter_cons.
  unfold RootPanel.
  match goal with |- context [setOptions o ?v] =>
    destruct (step_timer_cases (CallSetOptions o) v)
      as [(Hs & _ & Hr & _)|(Hs & _ & Hr & _)] end;
    cbn [step] in Hr; rewrite Hr, Hs.
  - by rewrite decide_False by done.
  - by rewrite decide_True by done.
Qed.

(** X4.  While the auto-resize option is on, a resize of the window
    makes every handler attached to it ask for a reflow of a surface
    whose client size is not the cached size, so the requests number
    as many as the times the watch was switched on; it changes nothing
    else, and asks for nothing when the sizes agree or there is no
    surface. *)
Theorem resize_asks_once_per_handler (w : World) :
  truthy_flag (Options.autoResize (options w)) = true →
  resize w
  = set_reflow_requests
      (reflow_requests w
       + if size_mismatch w then resize_handlers w else 0) w.
Proof. intros Hon. by apply iter_checkSize_on. Qed.

(** X5.  [reflow] caches the offset size of the surface while
    [checkSize] compares the client size with the cache.  Right after a
    [reflow], with the option on, [checkSize] therefore asks for a
    reflow again exactly when the client size of the surface is not its
    offset size. *)
Theorem checkSize_after_reflow (w : World) (f : Frame) :
  truthy_flag (Options.autoResize (options w)) = true →
  frame w = Some f →
  reflow_requests (checkSize (reflow w).1)
  = reflow_requests w
    + (if bool_decide (clientWidth f = offsetWidth f
                       ∧ clientHeight f = offsetHeight f)
       then 0 else 1).
Proof.
  intros Hon Hf.
  destruct (reflow_fields w) as (Ho & _ & _ & _ & Hf' & _ & _ & Hr & _).
  destruct (reflow_cache w f Hf) as (_ & _ & Hw & Hh).
  rewrite checkSize_on by by rewrite Ho.
  unfold size_mismatch. rewrite Hf', Hf, Hw, Hh. simpl.
  case_bool_decide as Hsame.
  - destruct Hsame as [-> ->]. rewrite !Z.eqb_refl. simpl.
    by rewrite Hr, Nat.add_0_r.
  - assert (Hm : negb (clientWidth f =? offsetWidth f)%Z
                 || negb (clientHeight f =? offsetHeight f)%Z = true).
    { destruct (Z.eqb_spec (clientWidth f) (offsetWidth f));
        destruct (Z.eqb_spec (clientHeight f) (offsetHeight f)); try done.
      exfalso. by apply Hsame. }
    rewrite Hm. unfold requestReflow. simpl. by rewrite Hr, Nat.add_1_r.
Qed.

Lemma step_timer_ok a w :
  timer_ok (intervals w) (watchTimer w) →
  timer_ok (intervals (step a w)) (watchTimer (step a w)).
Proof.
  intros Hok.
  destruct a as [o| | |event cb|h| |b|name ev]; cbn [step].
  - by apply setOptions_timer.
  - by rewrite (ss_intervals _ _ (repaint_same w)),
      (ss_watchTimer _ _ (repaint_same w)).
  - by destruct (reflow_fields w) as (_ & _ & _ & _ & _ & -> & -> & _).
  - by pose proof (on_keeps event cb w) as (_ & _ & _ & _ & -> & -> & _).
  - unfold tick. case_bool_decide; [by apply checkSize_timer|done].
  - by apply iter_checkSize_timer.
  - unfold layout. by destruct (frame w).
  - by rewrite dispatchEvent_eq.
Qed.

(** X6.  From the moment the auto-resize option is given explicitly, to
    the constructor or to [setOptions], the timer follows it: after
    that call and after anything that happens later, the panel holds a
    timer exactly when the option reads true. *)
Theorem timer_follows_explicit_option (w : World) (o : Options.t)
    (l : list action) :
  timer_ok (intervals w) (watchTimer w) →
  is_Some (Options.autoResize o) →
  let w' := run l (setOptions o w) in
  is_Some (watchTimer w')
  ↔ asBoolean (Options.autoResize (options w')) = true.
Proof.
  intros Hok [v Hv]. cbv zeta.
  assert (H0 : timer_ok (intervals (setOptions o w))
                 (watchTimer (setOptions o w))) by by apply setOptions_timer.
  assert (H1 : is_Some (watchTimer (setOptions o w))
               ↔ asBoolean (Options.autoResize (options (setOptions o w)))
                 = true)
    by by apply (explicit_autoResize_is_followed o v).
  revert H0 H1. generalize (setOptions o w). clear Hok w.
  induction l as [|a l IH]; intros w Hok Hiff; [done|].
  rewrite run_cons. apply IH; [by apply step_timer_ok|].
  by apply watch_follows_option_step.
Qed.

(** X7.  [setOptions] calls an auto-resize option that is a function,
    [checkSize] only tests the option for presence (line 154).  When
    the option is set to a function producing false, the timer is
    cleared, but the handlers left on the window do not stand down: at
    a resize of the window each of them still asks for a reflow of a
    surface whose client size is not the cached size. *)
Theorem produced_false_leaves_resize_handlers_live (w : World)
    (o : Options.t) (g : unit → bool) :
  reachable w →
  Options.autoResize o = Some (FlagProducer g) → g tt = false →
  size_mismatch w = true →
  let w' := setOptions o w in
  watchTimer w' = None ∧ intervals w' = []
  ∧ reflow_requests (resize w') = reflow_requests w' + resize_handlers w.
Proof.
  intros Hinv%reachable_invariant Ho Hg Hm. cbv zeta.
  pose proof (setOptions_same o w) as Hs.
  assert (Hw' : setOptions o w
                = set_options (Options.extend (options w) o) (_unwatch w)).
  { assert (Hopt : options (_unwatch w) = options w)
      by exact (f_equal options (unwatch_erase w)).
    unfold setOptions. rewrite Ho. cbn [asBoolean]. by rewrite Hg, Hopt. }
  destruct (unwatch_timer w (inv_timer w Hinv)) as [Hi Ht].
  destruct (unwatch_fields w) as (_ & Hr & _).
  split_and!.
  - by rewrite Hw'.
  - by rewrite Hw'.
  - unfold resize. rewrite iter_checkSize_on.
    + assert (Hm' : size_mismatch (setOptions o w) = true).
      { unfold size_mismatch in *.
        by rewrite (sw_frame _ _ Hs), (sw_width _ _ Hs), (sw_height _ _ Hs). }
      rewrite Hm'. cbn [reflow_requests set_reflow_requests]. f_equal.
      rewrite Hw'. cbn [resize_handlers set_options]. by rewrite Hr.
    + rewrite (sw_options _ _ Hs). simpl. by rewrite Ho.
Qed.

(** ** The surface (lines 48-102) *)

Lemma sync_frame w f :
  frame w = Some f →
  ∃ hs, frame (_updateEventEmitters w) = Some (set_handlers hs f).
Proof.
  intros Hf.
  pose proof (f_equal frame (erase_fold (listeners w) w)) as He.
  unfold erase in He. simpl in He. rewrite Hf in He.
  change (fold_left update_emitter (listeners w) w)
    with (_updateEventEmitters w) in He.
  destruct (frame (_updateEventEmitters w)) as [f'|]; [|done].
  exists (handlers f'). simpl in He. injection He as He.
  destruct f, f'. simpl in *. by simplify_eq.
Qed.

(** Once the surface exists, no action replaces it, renames its class
    or takes it out of its container. *)
Lemma step_surface_identity a w f :
  frame w = Some f →
  ∃ f', frame (step a w) = Some f' ∧ className f' = className f
        ∧ (∀ c, parentNode f = Some c → parentNode f' = Some c).
Proof.
  intros Hf.
  assert (Hsame : ∀ w', frame w' = frame w →
            ∃ f', frame w' = Some f' ∧ className f' = className f
                  ∧ (∀ c, parentNode f = Some c → parentNode f' = Some c)).
  { intros w' ->. by exists f. }
  assert (Hsync : ∀ w2 f2, frame w2 = Some f2 →
            className f2 = className f →
            (∀ c, parentNode f = Some c → parentNode f2 = Some c) →
            ∃ f', frame (_updateEventEmitters w2) = Some f'
                  ∧ className f' = className f
                  ∧ (∀ c, parentNode f = Some c → parentNode f' = Some c)).
  { intros w2 f2 Hf2 Hc Hp. destruct (sync_frame w2 f2 Hf2) as [hs ->].
    by eexists. }
  destruct a as [o| | |event cb|h| |b|name ev]; cbn [step].
  - apply Hsame, (sw_frame _ _ (setOptions_same o w)).
  - destruct (parentNode f) as [c|] eqn:Hp.
    + rewrite (repaint_attached w f c Hf Hp), repaint_styles_eq. cbn [fst].
      eapply Hsync; [reflexivity|reflexivity|simpl; intros; congruence].
    + assert (Hsp : surface_parent w = None)
        by (unfold surface_parent; by rewrite Hf).
      assert (Hsn : surface_or_new w = f)
        by (unfold surface_or_new; by rewrite Hf).
      destruct (Options.container (options w)) as [c|] eqn:Hc.
      * rewrite (repaint_attach w c Hsp Hc), repaint_styles_eq, Hsn. cbn [fst].
        eapply Hsync; [reflexivity|reflexivity|simpl; intros; congruence].
      * rewrite (repaint_throw w Hsp Hc), Hsn. simpl.
        eexists. split_and!; [done..|intros; congruence].
  - apply Hsame. by destruct (reflow_fields w) as (_ & _ & _ & _ & -> & _).
  - destruct (on_cases event cb w)
      as [(a & Ha & ->)|[(Ha & Hi & ->)|(Ha & Hi & ->)] ]; cbn [fst];
      [| |by apply Hsame].
    + eapply Hsync; [simpl; exact Hf|reflexivity|auto].
    + eapply Hsync; [simpl; exact Hf|reflexivity|auto].
  - apply Hsame, (sw_frame _ _ (erase_watch_same _ _ (tick_erase h w))).
  - apply Hsame, (sw_frame _ _ (erase_watch_same _ _ (resize_erase w))).
  - unfold layout. rewrite Hf. simpl. by eexists.
  - rewrite dispatchEvent_eq. by apply Hsame.
Qed.

Lemma run_surface_identity l w f :
  frame w = Some f →
  ∃ f', frame (run l w) = Some f' ∧ className f' = className f
        ∧ (∀ c, parentNode f = Some c → parentNode f' = Some c).
Proof.
  revert w f. induction l as [|a l IH]; intros w f Hf; [by exists f|].
  rewrite run_cons.
  destruct (step_surface_identity a w f Hf) as (f1 & Hf1 & Hc1 & Hp1).
  destruct (IH _ f1 Hf1) as (f2 & Hf2 & Hc2 & Hp2).
  exists f2. split_and!; [done|congruence|auto].
Qed.

(** X8.  The class name of the surface is decided when the surface is
    made, from the [className] option of that moment, also by a
    [repaint] that then fails for want of a container.  Nothing that
    happens later changes it: a [className] given to [setOptions]
    afterwards never reaches the element. *)
Theorem class_name_is_fixed_at_creation (w : World) (l : list action) :
  (∀ f, frame w = Some f → className <$> frame (run l w) = Some (className f))
  ∧ (frame w = None →
     className <$> frame (run l (repaint w).1)
     = Some (className (new_surface (options w)))).
Proof.
  split.
  - intros f Hf. destruct (run_surface_identity l w f Hf) as (f' & -> & Hc & _).
    simpl. by rewrite Hc.
  - intros Hf.
    assert (Hnew : ∃ f1, frame (repaint w).1 = Some f1
                         ∧ className f1 = className (new_surface (options w))).
    { assert (Hsp : surface_parent w = None)
        by (unfold surface_parent; by rewrite Hf).
      assert (Hsn : surface_or_new w = new_surface (options w))
        by (unfold surface_or_new; by rewrite Hf).
      destruct (Options.container (options w)) as [c|] eqn:Hc.
      - rewrite (repaint_attach w c Hsp Hc), repaint_styles_eq, Hsn. cbn [fst].
        match goal with |- context [_updateEventEmitters ?v] =>
          destruct (sync_frame v _ eq_refl) as [hs ->] end.
        by eexists.
      - rewrite (repaint_throw w Hsp Hc), Hsn. simpl. by eexists. }
    destruct Hnew as (f1 & Hf1 & Hc1).
    destruct (run_surface_identity l _ f1 Hf1) as (f' & -> & Hc & _).
    simpl. by rewrite Hc, Hc1.
Qed.

(** X9.  The surface is appended once.  When it sits in a container it
    stays there whatever happens: a different [container] given to
    [setOptions] afterwards does not move it, and no [repaint] appends
    it again. *)
Theorem container_is_fixed_at_attachment (w : World) (c : element)
    (l : list action) :
  surface_parent w = Some c → surface_parent (run l w) = Some c.
Proof.
  unfold surface_parent. intros Hp.
  destruct (frame w) as [f|] eqn:Hf; [simpl in Hp|done].
  destruct (run_surface_identity l w f Hf) as (f' & -> & _ & Hp').
  simpl. auto.
Qed.

Lemma erase_surface_rest w w' :
  erase_surface w' = erase_surface w →
  w' = set_frame (frame w')
         (set_emitters (emitters w') (set_style_writes (style_writes w') w)).
Proof.
  destruct w, w'. unfold erase_surface. simpl. intros [= ]. by subst.
Qed.

(** X14.  [repaint] works on the surface alone: besides the surface
    element, the dispatch functions it attaches and the style
    assignments it makes, it changes nothing, whether it returns or
    throws: not the options, the listeners, the cached geometry, the
    timer, the handlers on the window, nor the requests and calls made
    so far. *)
Theorem repaint_touches_the_surface_only (w : World) :
  (repaint w).1
  = set_frame (frame (repaint w).1)
      (set_emitters (emitters (repaint w).1)
         (set_style_writes (style_writes (repaint w).1) w)).
Proof. apply erase_surface_rest, repaint_erase_surface. Qed.

(** X10.  A [repaint] that fails for want of a container has made the
    surface all the same.  Repeating it fails again and changes nothing
    more.  Once a container is configured the next [repaint] returns
    true, appends the surface to that container, and attaches the
    dispatch function of every event that has a listener by then. *)
Theorem failed_repaint_can_be_retried (w : World) (o : Options.t)
    (c : element) :
  reachable w → (repaint w).2 = Throw no_container →
  Options.container o = Some c →
  let w1 := (repaint w).1 in
  let w2 := (repaint (setOptions o w1)).1 in
  is_Some (frame w1)
  ∧ repaint w1 = (w1, Throw no_container)
  ∧ (repaint (setOptions o w1)).2 = Return true
  ∧ surface_parent w2 = Some c
  ∧ (∀ event, registered event w ≠ [] →
       is_Some (emitter_map w2 !! event)).
Proof.
  intros Hreach Hthrow Hc. cbv zeta.
  destruct (repaint_throws_only_detached w _ Hthrow) as [Hnc Hsp].
  rewrite (repaint_throw w Hsp Hnc). cbn [fst].
  set (w1 := set_frame (Some (surface_or_new w)) w).
  assert (Hsp1 : surface_parent w1 = None).
  { unfold surface_parent, w1. simpl. by rewrite surface_or_new_parent. }
  assert (Hsn1 : surface_or_new w1 = surface_or_new w) by done.
  pose proof (setOptions_same o w1) as Hs.
  assert (Hsp2 : surface_parent (setOptions o w1) = None).
  { unfold surface_parent. by rewrite (sw_frame _ _ Hs). }
  assert (Hc2 : Options.container (options (setOptions o w1)) = Some c).
  { rewrite (sw_options _ _ Hs). simpl. by rewrite Hc. }
  assert (Hb : (repaint (setOptions o w1)).2 = Return true)
    by by rewrite (repaint_attach _ c Hsp2 Hc2), repaint_styles_eq.
  split_and!.
  - by eexists.
  - rewrite (repaint_throw w1 Hsp1 Hnc), Hsn1. f_equal.
  - done.
  - rewrite (repaint_attach _ c Hsp2 Hc2), repaint_styles_eq. cbn [fst].
    by rewrite (same_parent _ _ (sync_same _)).
  - intros event Hreg.
    destruct (repaint_done _ true Hb) as (_ & _ & _ & _ & _ & Hall & _).
    unfold registered in Hreg.
    destruct (assoc event (listeners w)) as [a|] eqn:Ha; [|done].
    apply (Hall event a). rewrite (sw_listeners _ _ Hs). simpl.
    by apply assoc_Some_elem.
Qed.

(** X16.  What [repaint] compares is text.  A [repaint] that returns
    assigns exactly those of top, left, width and height whose text on
    the surface is not the configured string (the default where none is
    configured), in that order; it returns true exactly when it created
    the surface, appended it, or made such an assignment; and what each
    property reads afterwards is what the host made of the assignment,
    which need not be the configured string. *)
Theorem repaint_compares_texts (w : World) (b : bool) :
  (repaint w).2 = Return b →
  let o := options w in
  let s := style (surface_or_new w) in
  style_writes (repaint w).1
  = style_writes w
    ++ filter (λ pv : style_prop * string, Style.get pv.1 s ≠ pv.2)
         [(StyleTop, asSize (Options.top o) "0");
          (StyleLeft, asSize (Options.left o) "0");
          (StyleWidth, asSize (Options.width o) "100%");
          (StyleHeight, asSize (Options.height o) "100%")]
  ∧ (b = true ↔ frame w = None ∨ surface_parent w = None
                ∨ s ≠ configured_style o)
  ∧ style <$> frame (repaint w).1
    = Some (Style.mk
              (restyled StyleTop (asSize (Options.top o) "0") (Style.top s))
              (restyled StyleLeft (asSize (Options.left o) "0") (Style.left s))
              (restyled StyleWidth (asSize (Options.width o) "100%")
                 (Style.width s))
              (restyled StyleHeight (asSize (Options.height o) "100%")
                 (Style.height s))).
Proof.
  intros Hb. cbv zeta. split_and!.
  - by apply (repaint_writes w b).
  - rewrite <- due_writes_nil. by apply repaint_changed_iff.
  - destruct (repaint_done w b Hb) as (f & c & -> & _ & Hs & _).
    simpl. by rewrite Hs.
Qed.

(** X17.  Where the host reads the configured strings back as they were
    written, [repaint] is idempotent: on a reachable panel with a
    container configured, a [repaint] that follows one that returned, at
    once or after anything that left the configuration as it was,
    returns false and changes nothing. *)
Theorem repaint_idempotent_where_verbatim (w : World) (c : element)
    (l : list action) :
  reachable w → Options.container (options w) = Some c →
  verbatim (options w) →
  let w1 := (repaint w).1 in
  (∀ l1 l2, l = l1 ++ l2 → options (run l1 w1) = options w1) →
  ∃ b, (repaint w).2 = Return b
       ∧ repaint (run l w1) = (run l w1, Return false).
Proof.
  intros Hinv%reachable_invariant Hc Hv w1 Hopt.
  destruct (repaint_returns w) as (b & Hb & Hp); [right; by rewrite Hc|].
  exists b. split; [done|].
  destruct (repaint_done w b Hb) as (f & c' & Hf & _ & Hs & _).
  assert (Hinv1 : invariant w1) by by apply invariant_repaint.
  apply repaint_of_settled; [by apply invariant_run|].
  apply settled_run; [done| |done].
  split; [done|]. unfold w1. rewrite Hf. simpl.
  by rewrite Hs, (repainted_verbatim _ _ Hv), (ss_options _ _ (repaint_same w)).
Qed.

(** ** Listeners and raw events (lines 194-237) *)

Lemma no_listener_no_emitter w event :
  invariant w → assoc event (listeners w) = None →
  emitter_map w !! event = None.
Proof.
  intros [_ (Halias & _ & _) _ _] Hnone.
  destruct (emitter_map w !! event) as [em|] eqn:Hem; [|done].
  destruct (Halias event em Hem) as (a & _ & Hin).
  apply assoc_None in Hnone. exfalso. apply Hnone.
  apply list_elem_of_fmap. by exists (event, a).
Qed.

(** X11.  While the surface sits in its container, a raw event of any
    name calls the listeners registered for that name, all of them,
    each with the raw event, in the order of their registration, and no
    other listener; a name without listeners calls nothing.  Nothing
    but the record of calls changes. *)
Theorem raw_event_calls_its_listeners (w : World) (event : string)
    (ev : raw_event) :
  reachable w → is_Some (surface_parent w) →
  dispatchEvent event ev w
  = set_calls (calls w ++ ((λ cb, (cb, ev)) <$> registered event w)) w.
Proof.
  intros Hinv%reachable_invariant Hp.
  rewrite dispatchEvent_eq, (attached_lookup w event Hinv). do 2 f_equal.
  destruct (assoc event (listeners w)) as [a|] eqn:Ha.
  - pose proof (inv_synced w Hinv) as [Hpend _].
    destruct (Hpend Hp event a (assoc_Some_elem _ _ _ Ha)) as [em Hem].
    change (default ∅ (emitters w)) with (emitter_map w) in Hem.
    rewrite Hem. simpl.
    by rewrite app_nil_r, (emitted_registered w event em ev Hinv Hem).
  - rewrite (no_listener_no_emitter w event Hinv Ha).
    unfold registered. by rewrite Ha.
Qed.

Lemma on_with_surface w event cb :
  invariant w → is_Some (frame w) → (on event cb w).2 = Return tt →
  ∃ em, emitter_map (on event cb w).1 !! event = Some em
        ∧ registered event (on event cb w).1 = registered event w ++ [cb]
        ∧ calls (on event cb w).1 = calls w.
Proof.
  intros Hinv Hf Hret.
  assert (Hreg := registered_on_same event cb w Hinv Hret).
  destruct (on_cases event cb w)
    as [(a & Ha & Hon)|[(Ha & Hi & Hon)|(Ha & Hi & Hon)] ];
    rewrite Hon in *; cbn [fst snd] in *; [| |done].
  - destruct (fold_update_covers (listeners w)
                (set_arrays (alter (λ l, l ++ [cb]) a (arrays w)) w) event a)
      as [em Hem]; [done|by apply assoc_Some_elem|].
    exists em. split_and!; [done..|].
    by rewrite (same_calls _ _ (sync_same _)).
  - destruct (fold_update_covers (listeners w ++ [(event, length (arrays w))])
                (set_arrays (arrays w ++ [[cb]])
                   (set_listeners
                      (listeners w ++ [(event, length (arrays w))]) w))
                event (length (arrays w)))
      as [em Hem]; [done|apply elem_of_app; right; apply list_elem_of_here|].
    exists em. split_and!; [done..|].
    by rewrite (same_calls _ _ (sync_same _)).
Qed.

(** X12.  When the surface exists, in a container or not, [on] called
    with a name that is no inherited one attaches the dispatch function
    of its event at once: the next raw event of that name calls the
    listeners the event had, and then the new one. *)
Theorem on_with_a_surface_attaches_at_once (w : World) (event : string)
    (cb : callback) (ev : raw_event) :
  reachable w → inherited event = false → is_Some (frame w) →
  let w1 := (on event cb w).1 in
  is_Some (emitter_map w1 !! event)
  ∧ calls (dispatchEvent event ev w1)
    = calls w ++ ((λ c, (c, ev)) <$> (registered event w ++ [cb])).
Proof.
  intros Hinv%reachable_invariant Hown Hf. cbv zeta.
  assert (Hret : (on event cb w).2 = Return tt)
    by (apply on_returns; by right).
  destruct (on_with_surface w event cb Hinv Hf Hret)
    as (em & Hem & Hreg & Hcalls).
  split; [by eexists|].
  rewrite (dispatch_calls _ event ev (invariant_on event cb w Hinv)).
  by rewrite Hem, Hreg, Hcalls.
Qed.

(** X13.  [on] does not look for the callback among the listeners it
    already has: a callback registered twice for an event, under a name
    that is no inherited one, is kept twice and, once the event has its
    dispatch function, called twice for every raw event of that name. *)
Theorem a_listener_registered_twice_is_called_twice (w : World)
    (event : string) (cb : callback) (ev : raw_event) :
  reachable w → inherited event = false →
  let w' := (on event cb (on event cb w).1).1 in
  registered event w' = registered event w ++ [cb; cb]
  ∧ (is_Some (frame w) →
     calls (dispatchEvent event ev w')
     = calls w ++ ((λ c, (c, ev)) <$> (registered event w ++ [cb; cb]))).
Proof.
  intros Hinv%reachable_invariant Hown. cbv zeta.
  assert (Hret : ∀ v, (on event cb v).2 = Return tt)
    by (intros v; apply on_returns; by right).
  pose proof (invariant_on event cb w Hinv) as Hinv1.
  assert (Hreg : registered event (on event cb (on event cb w).1).1
                 = registered event w ++ [cb; cb]).
  { rewrite !registered_on_same by done. by rewrite <- app_assoc. }
  split; [done|]. intros Hf.
  destruct (on_with_surface w event cb Hinv Hf (Hret _))
    as (em & Hem & _ & Hcalls).
  assert (Hf1 : is_Some (frame (on event cb w).1))
    by by apply (proj1 (proj2 (on_keeps event cb w))).
  destruct (on_with_surface _ event cb Hinv1 Hf1 (Hret _))
    as (em' & Hem' & _ & Hcalls').
  rewrite (dispatch_calls _ event ev (invariant_on event cb _ Hinv1)).
  by rewrite Hem', Hreg, Hcalls', Hcalls.
Qed.

(** X15.  The listeners are kept in a plain object, and [on] looks an
    event up in it by name (line 196).  For a name every object
    inherits, such as "constructor" or "toString", the lookup finds the
    inherited value, which is no array: [on] throws a type error at
    line 201 and leaves the panel as it was, with no listener kept.  For
    every other name [on] returns. *)
Theorem on_refuses_inherited_names (w : World) (event : string)
    (cb : callback) :
  reachable w →
  ((on event cb w).2 = Return tt ↔ inherited event = false)
  ∧ (inherited event = true →
     on event cb w = (w, Throw type_error) ∧ registered event w = []).
Proof.
  intros Hreach. pose proof (reachable_names w Hreach) as Hnames.
  assert (Hkey : inherited event = true → assoc event (listeners w) = None).
  { intros Hi. destruct (assoc event (listeners w)) as [a|] eqn:Ha; [|done].
    pose proof (Hnames event a (assoc_Some_elem _ _ _ Ha)). congruence. }
  split.
  - rewrite on_returns. split; [|by right].
    intros [ [a Ha]|Hi]; [|done].
    destruct (inherited event) eqn:Hi; [|done].
    rewrite (Hkey eq_refl) in Ha. done.
  - intros Hi. split; [by apply on_inherited; [apply Hkey|] |].
    unfold registered. by rewrite (Hkey Hi).
Qed.

End host.

(** * The model at work

    The examples below run the model on [sample_host]. *)

#[local] Existing Instance sample_host.

Example repaint_sample :
  let r := repaint (RootPanel "p" sample_options) in
  r.2 = Return true
  ∧ (style <$> frame r.1) = Some (Style.mk "10px" "0px" "100%" "50%")
  ∧ style_writes r.1
    = [(StyleTop, "10px"); (StyleLeft, "0"); (StyleWidth, "100%");
       (StyleHeight, "50%")]
  ∧ (className <$> frame r.1) = Some "graph panel wide"
  ∧ surface_parent r.1 = Some 7.
Proof. vm_compute. done. Qed.

(** The left of the surface reads "0px" where the configuration says
    "0": the second [repaint] assigns it again and returns true. *)
Example repaint_twice_sample :
  let w1 := (repaint (RootPanel "p" sample_options)).1 in
  (repaint w1).2 = Return true
  ∧ frame (repaint w1).1 = frame w1
  ∧ style_writes (repaint w1).1 = style_writes w1 ++ [(StyleLeft, "0")].
Proof. vm_compute. done. Qed.

(** Strings the host cannot parse are assigned and not stored. *)
Example odd_sample :
  let r := repaint (RootPanel "p" odd_options) in
  (style <$> frame r.1) = Some (Style.mk "" "" "100%" "100%")
  ∧ style_writes r.1
    = [(StyleTop, "10 px"); (StyleLeft, "wide"); (StyleWidth, "100%");
       (StyleHeight, "100%")]
  ∧ (repaint r.1).2 = Return true.
Proof. vm_compute. done. Qed.

Example dispatch_sample :
  let w := (on "click" 2 (on "click" 1 (RootPanel "p" sample_options)).1).1 in
  calls (dispatchEvent "click" 9 (repaint w).1) = [(1, 9); (2, 9)].
Proof. vm_compute. done. Qed.

Example inherited_sample :
  let w := RootPanel "p" sample_options in
  on "constructor" 1 w = (w, Throw type_error)
  ∧ (on "click" 1 w).2 = Return tt.
Proof. vm_compute. done. Qed.

Example throw_sample :
  let r := repaint (RootPanel "p" Options.empty) in
  r.2 = Throw no_container
  ∧ (parentNode <$> frame r.1) = Some None
  ∧ (repaint r.1).2 = Throw no_container.
Proof. vm_compute. done. Qed.

Example reflow_sample :
  let w := layout sample_box (repaint (RootPanel "p" sample_options)).1 in
  (reflow (RootPanel "p" sample_options)).2 = true
  ∧ (reflow w).2 = true
  ∧ width (reflow w).1 = Some 640%Z
  ∧ (reflow (reflow w).1).2 = false.
Proof. vm_compute. done. Qed.

(** With the watch switched on, a resize of the window and a tick of
    the timer each ask for a reflow of a surface whose size is not the
    cached one; switched off again, they ask for none. *)
Example watch_sample :
  let w := run [CallSetOptions (autoResize_only true); CallRepaint;
                HostLayout sample_box; HostResize; HostTick 1%positive]
             (RootPanel "p" sample_options) in
  let w' := run [CallSetOptions (autoResize_only false); HostResize;
                 HostTick 1%positive] w in
  watchTimer w = Some 1%positive ∧ reflow_requests w = 2
  ∧ watchTimer w' = None ∧ reflow_requests w' = 2.
Proof. vm_compute. done. Qed.

(** Switched off by a function producing false, the watch loses its
    timer and goes on asking at every resize of the window. *)
Example produced_false_sample :
  let o := Options.mk None None None None None None None
             (Some (FlagProducer (λ _, false))) in
  let w := run [CallSetOptions (autoResize_only true); CallRepaint;
                HostLayout sample_box]
             (RootPanel "p" sample_options) in
  let w' := run [CallSetOptions o; HostTick 1%positive; HostResize;
                 HostResize] w in
  watchTimer w = Some 1%positive ∧ reflow_requests w = 0
  ∧ watchTimer w' = None ∧ intervals w' = [] ∧ reflow_requests w' = 2.
Proof. vm_compute. done. Qed.

(** Built without the auto-resize key, the panel has the option on and
    watches nothing. *)
Example default_sample :
  let w := run [CallRepaint; HostLayout sample_box; HostResize;
                HostTick 1%positive]
             (RootPanel "p" sample_options) in
  Options.autoResize (options w) = Some (Flag true)
  ∧ watchTimer w = None ∧ resize_handlers w = 0 ∧ reflow_requests w = 0.
Proof. vm_compute. done. Qed.

(** * The theorems at work *)

Lemma repaint_without_container_witness :
  (repaint (RootPanel "p" Options.empty)).2 = Throw no_container.
Proof.
  apply (proj1 (repaint_without_container (RootPanel "p" Options.empty))).
  split; reflexivity.
Defined.

Lemma reflow_result_witness :
  let w := (repaint (RootPanel "p" sample_options)).1 in
  reflow (RootPanel "p" sample_options) = (RootPanel "p" sample_options, true)
  ∧ ((reflow w).2 = true ↔
       (top (reflow w).1, left (reflow w).1, width (reflow w).1,
        height (reflow w).1)
       ≠ (top w, left w, width w, height w))
  ∧ reflow (reflow w).1 = ((reflow w).1, false).
Proof.
  cbv zeta. split_and!.
  - apply (proj1 (reflow_result (RootPanel "p" sample_options))). reflexivity.
  - eapply (proj2 (reflow_result (repaint (RootPanel "p" sample_options)).1)).
    reflexivity.
  - eapply (proj2 (reflow_result (repaint (RootPanel "p" sample_options)).1)).
    reflexivity.
Defined.

Lemma one_dispatch_function_per_event_witness :
  let w := step (CallOn "click" 2)
             (step (CallOn "click" 1)
                (step CallRepaint (RootPanel "p" sample_options))) in
  length (attached "click" w) ≤ 1
  ∧ (∀ em, em ∈ attached "click" w ↔ emitter_map w !! "click" = Some em)
  ∧ (attached "click" w ≠ [] ∨ is_Some (emitter_map w !! "click") →
       is_Some (frame w) ∧ registered "click" w ≠ [])
  ∧ (∀ a, attached "click" w `prefix_of` attached "click" (step a w)).
Proof.
  cbv zeta. apply one_dispatch_function_per_event.
  do 3 apply reachable_step. apply reachable_new.
Defined.

Lemma two_listeners_in_order_witness :
  let l := [CallOn "click" 1; CallRepaint; CallOn "hover" 5; CallOn "click" 2] in
  let w := run l (RootPanel "p" sample_options) in
  calls (call_emitter (Dispatch 0) 9 w) = calls w ++ [(1, 9); (2, 9)]
  ∧ calls (dispatchEvent "click" 9 w) = calls w ++ [(1, 9); (2, 9)].
Proof.
  cbv zeta.
  apply (two_listeners_in_order "p" sample_options
           [CallOn "click" 1; CallRepaint; CallOn "hover" 5; CallOn "click" 2]
           "click" 1 2 (Dispatch 0) 9).
  - reflexivity.
  - vm_compute. reflexivity.
Defined.



Lemma late_listener_is_called_witness :
  let w := step (CallOn "click" 1)
             (step CallRepaint (RootPanel "p" sample_options)) in
  registered "click" (on "click" 2 w).1 = registered "click" w ++ [2].
Proof.
  cbv zeta.
  refine (proj1 (late_listener_is_called _ "click" (Dispatch 0) 2 _ _)).
  - do 2 apply reachable_step. apply reachable_new.
  - vm_compute. reflexivity.
Defined.

Lemma default_configuration_is_not_watched_witness :
  let w := run [CallRepaint; HostResize; CallReflow]
             (RootPanel "p" sample_options) in
  asBoolean (Options.autoResize (options w)) = true
  ∧ truthy_flag (Options.autoResize (options w)) = true
  ∧ watchTimer w = None.
Proof.
  apply (default_configuration_is_not_watched "p" sample_options
           [CallRepaint; HostResize; CallReflow]).
  - reflexivity.
  - repeat constructor.
Defined.

Lemma produced_false_does_not_stop_the_watch_witness :
  let o := Options.mk None None None None None None None
             (Some (FlagProducer (λ _, false))) in
  let w := run [CallSetOptions (autoResize_only true); CallRepaint;
                HostLayout sample_box]
             (RootPanel "p" sample_options) in
  let w' := run [CallReflow; HostLayout (mkBox 0 0 800 600 800 600)]
              (setOptions o w) in
  asBoolean (Options.autoResize (options w')) = false
  ∧ watchTimer w' = None ∧ intervals w' = []
  ∧ reflow_requests (resize w')
    = reflow_requests w'
      + (if size_mismatch w' then resize_handlers w' else 0).
Proof.
  cbv zeta.
  apply (produced_false_does_not_stop_the_watch _ _ (λ _, false)).
  - apply reachable_run, reachable_new.
  - reflexivity.
  - reflexivity.
  - repeat constructor.
Defined.

Lemma repeated_repaint_returns_true_witness :
  let w := RootPanel "p" (Options.mk (Some 7) None None None None None None None) in
  let w1 := (repaint w).1 in
  (repaint w).2 = Return true
  ∧ (repaint (run [CallReflow; CallRepaint] w1)).2 = Return true.
Proof.
  cbv zeta.
  apply (repeated_repaint_returns_true _ 7 [CallReflow; CallRepaint] StyleTop).
  - discriminate.
  - apply reachable_new.
  - reflexivity.
  - reflexivity.
  - vm_compute. reflexivity.
Defined.

Lemma repaint_reports_a_change_it_did_not_make_witness :
  let w := RootPanel "p" sample_options in
  let w1 := (repaint w).1 in
  let w2 := (repaint w1).1 in
  (repaint w1).2 = Return true
  ∧ frame w2 = frame w1
  ∧ set_style_writes (style_writes w1) w2 = w1
  ∧ ∃ ws, style_writes w2 = style_writes w1 ++ ws ∧ (StyleLeft, "0") ∈ ws.
Proof.
  cbv zeta.
  apply (repaint_reports_a_change_it_did_not_make _ 7 StyleLeft).
  - discriminate.
  - apply reachable_new.
  - reflexivity.
  - reflexivity.
Defined.

Lemma at_most_one_timer_witness :
  let w := step (CallSetOptions (autoResize_only true))
             (step (CallSetOptions (autoResize_only true))
                (RootPanel "p" sample_options)) in
  intervals w = option_list (watchTimer w)
  ∧ (watchTimer w ≠ Some 1%positive → tick 1%positive w = w).
Proof.
  cbv zeta. apply at_most_one_timer.
  do 2 apply reachable_step. apply reachable_new.
Defined.

Lemma watch_restart_replaces_the_timer_witness :
  let w := step (CallSetOptions (autoResize_only true))
             (RootPanel "p" sample_options) in
  let w' := setOptions (autoResize_only true) w in
  let l := [CallRepaint; HostResize; CallSetOptions (autoResize_only false)] in
  intervals w = [1%positive]
  ∧ intervals w' = [next_timer w] ∧ watchTimer w' = Some (next_timer w)
  ∧ next_timer w ≠ 1%positive
  ∧ watchTimer (run l w') ≠ Some 1%positive
  ∧ tick 1%positive (run l w') = run l w'.
Proof.
  cbv zeta.
  apply (watch_restart_replaces_the_timer _ (autoResize_only true) (Flag true)).
  - apply reachable_step, reachable_new.
  - reflexivity.
  - reflexivity.
  - reflexivity.
Defined.

Lemma resize_asks_once_per_handler_witness :
  let w := run [CallSetOptions (autoResize_only true);
                CallSetOptions (autoResize_only true); CallRepaint;
                HostLayout sample_box]
             (RootPanel "p" sample_options) in
  reflow_requests (resize w) = 2.
Proof.
  cbv zeta. rewrite resize_asks_once_per_handler by reflexivity.
  vm_compute. reflexivity.
Defined.

Lemma checkSize_after_reflow_witness :
  let w := run [CallSetOptions (autoResize_only true); CallRepaint;
                HostLayout (mkBox 0 0 640 480 636 476)]
             (RootPanel "p" sample_options) in
  reflow_requests (checkSize (reflow w).1) = reflow_requests w + 1.
Proof.
  cbv zeta.
  refine (checkSize_after_reflow _
            (mkFrame "graph panel wide" (Some 7)
               (Style.mk "10px" "0px" "100%" "50%") 0 0 640 480 636 476 [])
            _ _).
  - reflexivity.
  - vm_compute. reflexivity.
Defined.

Lemma timer_follows_explicit_option_witness :
  let w := run [CallRepaint; HostResize;
                CallSetOptions (autoResize_only false)]
             (RootPanel "p" (autoResize_only true)) in
  is_Some (watchTimer w)
  ↔ asBoolean (Options.autoResize (options w)) = true.
Proof.
  cbv zeta. unfold RootPanel. apply timer_follows_explicit_option.
  - reflexivity.
  - by eexists.
Defined.

Lemma produced_false_leaves_resize_handlers_live_witness :
  let w := run [CallSetOptions (autoResize_only true); CallRepaint;
                HostLayout sample_box]
             (RootPanel "p" sample_options) in
  let o := Options.mk None None None None None None None
             (Some (FlagProducer (λ _, false))) in
  watchTimer (setOptions o w) = None ∧ intervals (setOptions o w) = []
  ∧ reflow_requests (resize (setOptions o w))
    = reflow_requests (setOptions o w) + resize_handlers w.
Proof.
  cbv zeta.
  apply (produced_false_leaves_resize_handlers_live _ _ (λ _, false)).
  - apply reachable_run, reachable_new.
  - reflexivity.
  - reflexivity.
  - vm_compute. reflexivity.
Defined.

Lemma class_name_is_fixed_at_creation_witness :
  let w := RootPanel "p" sample_options in
  let l := [CallSetOptions
              (Options.mk None None (Some (Class "narrow")) None None None
                 None None);
            CallRepaint] in
  className <$> frame (run l (repaint w).1)
  = Some (className (new_surface (options w))).
Proof.
  cbv zeta.
  apply (proj2 (class_name_is_fixed_at_creation (RootPanel "p" sample_options) _)).
  reflexivity.
Defined.

Lemma container_is_fixed_at_attachment_witness :
  let w := (repaint (RootPanel "p" sample_options)).1 in
  let l := [CallSetOptions
              (Options.mk (Some 8) None None None None None None None);
            CallRepaint] in
  surface_parent (run l w) = Some 7.
Proof.
  cbv zeta. apply container_is_fixed_at_attachment. reflexivity.
Defined.

Lemma repaint_compares_texts_witness :
  let w := RootPanel "p" sample_options in
  style_writes (repaint w).1
  = [(StyleTop, "10px"); (StyleLeft, "0"); (StyleWidth, "100%");
     (StyleHeight, "50%")]
  ∧ style <$> frame (repaint w).1
    = Some (Style.mk "10px" "0px" "100%" "50%").
Proof.
  pose proof (repaint_compares_texts (RootPanel "p" sample_options) true
                eq_refl) as (Hwrites & _ & Hstyle).
  exact (conj Hwrites Hstyle).
Defined.

Lemma repaint_idempotent_where_verbatim_witness :
  let w1 := (repaint (RootPanel "p" unit_options)).1 in
  ∃ b, (repaint (RootPanel "p" unit_options)).2 = Return b
       ∧ repaint (run [CallReflow; CallRepaint] w1)
         = (run [CallReflow; CallRepaint] w1, Return false).
Proof.
  cbv zeta.
  apply (repaint_idempotent_where_verbatim (RootPanel "p" unit_options) 7
           [CallReflow; CallRepaint]).
  - apply reachable_new.
  - reflexivity.
  - repeat constructor.
  - intros [|a1 [|a2 [|a3 l1] ] ] l2 Heq.
    + reflexivity.
    + injection Heq as <- _. vm_compute. reflexivity.
    + injection Heq as <- <- _. vm_compute. reflexivity.
    + discriminate Heq.
Defined.

Lemma failed_repaint_can_be_retried_witness :
  let w := (on "click" 1 (RootPanel "p" Options.empty)).1 in
  let o := Options.mk (Some 7) None None None None None None None in
  let w1 := (repaint w).1 in
  let w2 := (repaint (setOptions o w1)).1 in
  is_Some (frame w1)
  ∧ repaint w1 = (w1, Throw no_container)
  ∧ (repaint (setOptions o w1)).2 = Return true
  ∧ surface_parent w2 = Some 7
  ∧ (∀ event, registered event w ≠ [] →
       is_Some (emitter_map w2 !! event)).
Proof.
  cbv zeta. apply failed_repaint_can_be_retried.
  - apply (reachable_step (CallOn "click" 1)), reachable_new.
  - reflexivity.
  - reflexivity.
Defined.

Lemma raw_event_calls_its_listeners_witness :
  let w := run [CallOn "click" 1; CallRepaint; CallOn "hover" 5;
                CallOn "click" 2]
             (RootPanel "p" sample_options) in
  dispatchEvent "click" 9 w
  = set_calls (calls w ++ ((λ cb, (cb, 9)) <$> registered "click" w)) w.
Proof.
  cbv zeta. apply raw_event_calls_its_listeners.
  - apply reachable_run, reachable_new.
  - vm_compute. by eexists.
Defined.

Lemma on_with_a_surface_attaches_at_once_witness :
  let w := (repaint (on "click" 1 (RootPanel "p" Options.empty)).1).1 in
  is_Some (emitter_map (on "click" 2 w).1 !! "click")
  ∧ calls (dispatchEvent "click" 9 (on "click" 2 w).1)
    = calls w ++ ((λ c, (c, 9)) <$> (registered "click" w ++ [2])).
Proof.
  cbv zeta. apply on_with_a_surface_attaches_at_once.
  - apply (reachable_step CallRepaint),
      (reachable_step (CallOn "click" 1)), reachable_new.
  - reflexivity.
  - vm_compute. by eexists.
Defined.

Lemma a_listener_registered_twice_is_called_twice_witness :
  let w := (repaint (RootPanel "p" sample_options)).1 in
  registered "click" (on "click" 1 (on "click" 1 w).1).1
  = registered "click" w ++ [1; 1].
Proof.
  cbv zeta.
  refine (proj1 (a_listener_registered_twice_is_called_twice _ "click" 1 0 _ _)).
  - apply (reachable_step CallRepaint), reachable_new.
  - reflexivity.
Defined.

Lemma on_refuses_inherited_names_witness :
  let w := step (CallOn "click" 1) (RootPanel "p" sample_options) in
  on "constructor" 2 w = (w, Throw type_error)
  ∧ registered "constructor" w = [].
Proof.
  cbv zeta.
  refine (proj2 (on_refuses_inherited_names _ "constructor" 2 _) _).
  - apply reachable_step, reachable_new.
  - reflexivity.
Defined.
